(** * A shallow embedding of [vector.h]: [RawMemory<T>] and [Vector<T>]

    The embedding follows the header member by member.

    - A block obtained from [operator new] is a list of slots; a slot is
      either raw memory ([None]) or holds a live object ([Some x]).  The null
      buffer is the empty list.
    - [size_t] counters are natural numbers: a block of [n] slots lies inside
      the address space, so no counter of a vector that exists reaches the
      wrap-around of [size_t].  The one product a caller can make wrap is
      [n * sizeof(T)] in [Allocate], through [Reserve(n)], [Resize(n)] and
      [Vector(n)]: [Allocate] is the header's when that product fits
      [size_t], and [Allocate_size_t], with [Reserve_size_t],
      [Resize_size_t] and [Vector_sized_size_t] built on it, computes the
      product as the header does, for a type of known size (class [Sized])
      and a [size_t] of 64 bits.  What a granted request of a size chosen
      by the caller leads to is stated about these.
    - The counter [int i] of copy assignment overflows once it passes
      [INT_MAX]: copy assignment is undefined there.
    - An iterator is the offset of its slot from [begin()].
    - Exceptions are results: an operation returns normally, raises (with the
      state the vector is left in once the stack is unwound) or has undefined
      behaviour.  Every result also lists the objects that were still alive
      in a block when [~RawMemory] released it: their destructor never ran.
    - The element type is a parameter, described by the class [Element]:
      which constructor calls throw, what a moved-from object looks like and
      the two type traits the header dispatches on.  Assignment operators and
      destructors of [T] do not throw: what is proved about [Erase], the
      in-place branch of [Emplace], the reusing branch of copy assignment
      and writes through [operator[]] is proved for such a [T].
    - Whether [operator new] grants a request is an argument of every
      operation that allocates. *)

From stdpp Require Import base list strings.

Set Default Proof Using "Type".

(** ** The element type *)

Class Element (T : Type) := {
  (** the value of [T()] and whether that constructor throws *)
  value_init : T;
  value_init_throws : bool;
  (** [T(std::forward<Args>(args)...)] throws when building this value *)
  ctor_throws : T → bool;
  (** [T(const T&)] throws on this source *)
  copy_throws : T → bool;
  (** [T(T&&)] throws on this source *)
  move_throws : T → bool;
  (** the state a source is left in once it has been moved from *)
  moved_from : T → T;
  is_nothrow_move_constructible : bool;
  is_copy_constructible : bool;
  (** a [noexcept] move constructor does not throw *)
  nothrow_move_sound :
    is_nothrow_move_constructible = true → ∀ x, move_throws x = false
}.

(** [sizeof(T)], for the byte counts of [Allocate]. *)
Class Sized (T : Type) := {
  sizeof_T : N;
  sizeof_T_pos : (0 < sizeof_T)%N
}.

(** [SIZE_MAX + 1] for a [size_t] of 64 bits, and [INT_MAX] for an [int] of
    32 bits. *)
Definition size_t_modulus : N := 2 ^ 64.
Definition INT_MAX : N := 2147483647.

(** How elements travel from one slot to another. *)
Inductive transfer := by_move | by_copy.

(** What an exception is. *)
Inductive exn := bad_alloc | element_exn.

(** Result of a library algorithm working on state [S]. *)
Inductive run (S : Type) :=
| Done (s : S)
| Thrown (s : S)
| Undef.
Arguments Done {S} s.
Arguments Thrown {S} s.
Arguments Undef {S}.

(** Result of a member function: [S] is what exists after the call, [A] the
    returned value, [leaked] the objects released without destruction. *)
Inductive outcome (S A : Type) (T : Type) :=
| Normal (a : A) (self : S) (leaked : list T)
| Raised (e : exn) (self : S) (leaked : list T)
| Undefined.
Arguments Normal {S A T} a self leaked.
Arguments Raised {S A T} e self leaked.
Arguments Undefined {S A T}.

Section Model.
Context {T : Type} `{Element T}.

(** ** Slots *)

Definition live_at (buf : list (option T)) (i : nat) : option T :=
  match buf !! i with
  | Some (Some x) => Some x
  | _ => None
  end.

(** [new (buf + i) T(x)]: the slot must belong to the block. *)
Definition construct_at (buf : list (option T)) (i : nat) (x : T)
  : option (list (option T)) :=
  if i <? length buf then Some (<[i := Some x]> buf) else None.

(** [buf[i] = x]: the target must be a live object. *)
Definition assign_at (buf : list (option T)) (i : nat) (x : T)
  : option (list (option T)) :=
  match live_at buf i with
  | Some _ => Some (<[i := Some x]> buf)
  | None => None
  end.

(** [std::destroy_at(buf + i)] *)
Definition destroy_at (buf : list (option T)) (i : nat)
  : option (list (option T)) :=
  match live_at buf i with
  | Some _ => Some (<[i := None]> buf)
  | None => None
  end.

(** [std::destroy_n(buf + first, n)] *)
Fixpoint destroy_n (buf : list (option T)) (first n : nat)
  : option (list (option T)) :=
  match n with
  | 0 => Some buf
  | S n' =>
      match destroy_at buf first with
      | Some buf' => destroy_n buf' (S first) n'
      | None => None
      end
  end.

(** The objects alive in a block at the moment it is released. *)
Definition live_in (buf : list (option T)) : list T := omap id buf.

(** ** Constructing and assigning from another element *)

(** [T(std::move(x))] or [T(x)]: the new value and the state of the source,
    or [None] when the constructor throws. *)
Definition construct_from (how : transfer) (x : T) : option (T * T) :=
  match how with
  | by_move => if move_throws x then None else Some (x, moved_from x)
  | by_copy => if copy_throws x then None else Some (x, x)
  end.

(** State of the source of [d = std::move(x)] or [d = x]. *)
Definition source_after (how : transfer) (x : T) : T :=
  match how with
  | by_move => moved_from x
  | by_copy => x
  end.

(** The dispatch
    [if constexpr (std::is_nothrow_move_constructible_v<T> || !std::is_copy_constructible_v<T>)]. *)
Definition transfer_rule : transfer :=
  if is_nothrow_move_constructible || negb is_copy_constructible
  then by_move else by_copy.

(** ** Library algorithms *)

(** The loop of [std::uninitialized_copy_n] / [std::uninitialized_move_n]:
    for [n] rounds an object is constructed at [cur] from the one at
    [first], and both advance. *)
Fixpoint uninitialized_loop (how : transfer)
    (src : list (option T)) (first n : nat)
    (dst : list (option T)) (cur : nat)
  : run (list (option T) * list (option T) * nat) :=
  match n with
  | 0 => Done (src, dst, cur)
  | S n' =>
      match live_at src first with
      | None => Undef
      | Some x =>
          match construct_from how x with
          | None => Thrown (src, dst, cur)
          | Some (built, remains) =>
              match construct_at dst cur built with
              | None => Undef
              | Some dst' =>
                  uninitialized_loop how (<[first := Some remains]> src)
                                     (S first) n' dst' (S cur)
              end
          end
      end
  end.

(** [std::uninitialized_copy_n(src + first, n, dst + d_first)] and its move
    twin: when a constructor throws, the objects built so far are destroyed
    ([catch (...) { std::destroy(d_first, cur); throw; }]). *)
Definition uninitialized_n (how : transfer)
    (src : list (option T)) (first n : nat)
    (dst : list (option T)) (d_first : nat)
  : run (list (option T) * list (option T)) :=
  match uninitialized_loop how src first n dst d_first with
  | Done (src', dst', _) => Done (src', dst')
  | Thrown (src', dst', cur) =>
      match destroy_n dst' d_first (cur - d_first) with
      | Some dst'' => Thrown (src', dst'')
      | None => Undef
      end
  | Undef => Undef
  end.

(** [std::uninitialized_copy(src + first, src + last, dst + d_first)] and
    its move twin; [first, last) must be a range. *)
Definition uninitialized_range (how : transfer)
    (src : list (option T)) (first last : nat)
    (dst : list (option T)) (d_first : nat)
  : run (list (option T) * list (option T)) :=
  if first <=? last
  then uninitialized_n how src first (last - first) dst d_first
  else Undef.

(** The loop of [std::uninitialized_value_construct_n]. *)
Fixpoint value_construct_loop (buf : list (option T)) (cur n : nat)
  : run (list (option T) * nat) :=
  match n with
  | 0 => Done (buf, cur)
  | S n' =>
      if value_init_throws then Thrown (buf, cur)
      else
        match construct_at buf cur value_init with
        | None => Undef
        | Some buf' => value_construct_loop buf' (S cur) n'
        end
  end.

(** [std::uninitialized_value_construct_n(buf + first, n)] *)
Definition uninitialized_value_construct_n
    (buf : list (option T)) (first n : nat) : run (list (option T)) :=
  match value_construct_loop buf first n with
  | Done (buf', _) => Done buf'
  | Thrown (buf', cur) =>
      match destroy_n buf' first (cur - first) with
      | Some buf'' => Thrown buf''
      | None => Undef
      end
  | Undef => Undef
  end.

(** The loop of [std::move_backward] / [std::copy_backward] inside one
    block: while [first != last], both [last] and [d_last] step back and
    the object at [d_last] is assigned from the one at [last]; [n] is the
    number of rounds left. *)
Fixpoint assign_backward_loop (how : transfer)
    (buf : list (option T)) (n last d_last : nat)
  : option (list (option T)) :=
  match n with
  | 0 => Some buf
  | S n' =>
      match last, d_last with
      | S last', S d_last' =>
          match live_at buf last' with
          | None => None
          | Some x =>
              match assign_at buf d_last' x with
              | None => None
              | Some buf' =>
                  assign_backward_loop how
                    (<[last' := Some (source_after how x)]> buf')
                    n' last' d_last'
              end
          end
      | _, _ => None
      end
  end.

(** [std::move_backward(buf + first, buf + last, buf + d_last)] and
    [std::copy_backward]; [first, last) must be a range. *)
Definition assign_backward (how : transfer)
    (buf : list (option T)) (first last d_last : nat)
  : option (list (option T)) :=
  if first <=? last
  then assign_backward_loop how buf (last - first) last d_last
  else None.

(** The loop of [std::move] / [std::copy] inside one block:
    while [first != last], the object at [d_first] is assigned from the one
    at [first], and both advance; [n] is the number of rounds left. *)
Fixpoint assign_forward_loop (how : transfer)
    (buf : list (option T)) (n first d_first : nat)
  : option (list (option T)) :=
  match n with
  | 0 => Some buf
  | S n' =>
      match live_at buf first with
      | None => None
      | Some x =>
          match assign_at buf d_first x with
          | None => None
          | Some buf' =>
              assign_forward_loop how
                (<[first := Some (source_after how x)]> buf')
                n' (S first) (S d_first)
          end
      end
  end.

(** [std::move(buf + first, buf + last, buf + d_first)] and [std::copy]. *)
Definition assign_forward (how : transfer)
    (buf : list (option T)) (first last d_first : nat)
  : option (list (option T)) :=
  if first <=? last
  then assign_forward_loop how buf (last - first) first d_first
  else None.

(** ** [RawMemory<T>] *)

Record RawMemory := { buffer_ : list (option T); capacity_ : nat }.

(** [RawMemory() = default] *)
Definition RawMemory_default : RawMemory :=
  {| buffer_ := []; capacity_ := 0 |}.

(** [Allocate(n)]: no request is made for [n = 0]; otherwise [operator_new]
    tells whether the request for [n] slots is granted ([None]: it throws).
    The block granted has [n] slots: this is the header's [Allocate] when
    [n * sizeof(T)] fits [size_t]; [Allocate_size_t] below covers the
    rest. *)
Definition Allocate (operator_new : nat → bool) (n : nat)
  : option (list (option T)) :=
  if negb (n =? 0)
  then (if operator_new n then Some (replicate n None) else None)
  else Some [].

(** [explicit RawMemory(size_t capacity)] *)
Definition RawMemory_sized (operator_new : nat → bool) (capacity : nat)
  : option RawMemory :=
  match Allocate operator_new capacity with
  | Some buf => Some {| buffer_ := buf; capacity_ := capacity |}
  | None => None
  end.

(** [~RawMemory()] frees the block and destroys nothing: what is still alive
    in it is lost. *)
Definition RawMemory_release (m : RawMemory) : list T := live_in (buffer_ m).

(** [RawMemory::Swap]: the pair is ([*this], [other]) after the call. *)
Definition RawMemory_Swap (this other : RawMemory) : RawMemory * RawMemory :=
  ({| buffer_ := buffer_ other; capacity_ := capacity_ other |},
   {| buffer_ := buffer_ this; capacity_ := capacity_ this |}).

(** ** [Vector<T>] *)

Record Vector := { data_ : RawMemory; size_ : nat }.

Definition Size (v : Vector) : nat := size_ v.
Definition Capacity (v : Vector) : nat := capacity_ (data_ v).

(** A write through the pointer held by [data_]. *)
Definition store (v : Vector) (buf : list (option T)) : Vector :=
  {| data_ := {| buffer_ := buf; capacity_ := capacity_ (data_ v) |};
     size_ := size_ v |}.

(** [operator[]] read: [index < size_] is the contract. *)
Definition subscript (v : Vector) (index : nat) : option T :=
  if index <? size_ v then live_at (buffer_ (data_ v)) index else None.

(** A write through the reference [operator[]] returns. *)
Definition subscript_assign (v : Vector) (index : nat) (x : T)
  : outcome Vector unit T :=
  if index <? size_ v then
    match assign_at (buffer_ (data_ v)) index x with
    | Some buf => Normal tt (store v buf) []
    | None => Undefined
    end
  else Undefined.

(** The values of the live elements, in index order. *)
Definition contents (v : Vector) : list T :=
  live_in (take (size_ v) (buffer_ (data_ v))).

(** [Vector() = default] *)
Definition Vector_default : Vector :=
  {| data_ := RawMemory_default; size_ := 0 |}.

(** [explicit Vector(size_t size)] *)
Definition Vector_sized (operator_new : nat → bool) (size : nat)
  : outcome unit Vector T :=
  match RawMemory_sized operator_new size with
  | None => Raised bad_alloc tt []
  | Some data =>
      match uninitialized_value_construct_n (buffer_ data) 0 size with
      | Undef => Undefined
      | Thrown buf => Raised element_exn tt (live_in buf)
      | Done buf =>
          Normal {| data_ := {| buffer_ := buf; capacity_ := capacity_ data |};
                    size_ := size |} tt []
      end
  end.

(** [Vector(const Vector& other)] *)
Definition Vector_copy (operator_new : nat → bool) (other : Vector)
  : outcome unit Vector T :=
  match RawMemory_sized operator_new (size_ other) with
  | None => Raised bad_alloc tt []
  | Some data =>
      match uninitialized_n by_copy (buffer_ (data_ other)) 0 (size_ other)
                            (buffer_ data) 0 with
      | Undef => Undefined
      | Thrown (_, buf) => Raised element_exn tt (live_in buf)
      | Done (_, buf) =>
          Normal {| data_ := {| buffer_ := buf; capacity_ := capacity_ data |};
                    size_ := size_ other |} tt []
      end
  end.

(** [Vector::Swap]: the pair is ([*this], [other]) after the call. *)
Definition Swap (this other : Vector) : Vector * Vector :=
  let '(d, od) := RawMemory_Swap (data_ this) (data_ other) in
  ({| data_ := d; size_ := size_ other |},
   {| data_ := od; size_ := size_ this |}).

(** [Vector(Vector&& other) noexcept]: the new vector starts from its default
    member initialisers, then swaps.  The pair is (new vector, [other]). *)
Definition Vector_move (other : Vector) : Vector * Vector :=
  Swap Vector_default other.

(** [Vector& operator=(Vector&& other) noexcept]: ([*this], [other]) after
    the call. *)
Definition move_assign (this other : Vector) : Vector * Vector :=
  Swap this other.

(** [~Vector()]: destroys the live elements, then [~RawMemory] frees the
    block. *)
Definition Vector_destroy (v : Vector) : option (list T) :=
  match destroy_n (buffer_ (data_ v)) 0 (size_ v) with
  | Some buf => Some (live_in buf)
  | None => None
  end.

(** The loop [for (; i < rhs.size_ && i < size_; ++i) data_[i] = rhs.data_[i];]
    of copy assignment, [n] rounds from index [i]. *)
Fixpoint copy_assign_loop (src dst : list (option T)) (i n : nat)
  : option (list (option T)) :=
  match n with
  | 0 => Some dst
  | S n' =>
      match live_at src i with
      | None => None
      | Some x =>
          match assign_at dst i x with
          | None => None
          | Some dst' => copy_assign_loop src dst' (S i) n'
          end
      end
  end.

(** [Vector& operator=(const Vector& rhs)] for [this != &rhs] (assigning a
    vector to itself returns at once).  The loop counter is an [int]: when
    both sizes exceed [INT_MAX], [++i] overflows it, which is undefined. *)
Definition copy_assign (operator_new : nat → bool) (rhs this : Vector)
  : outcome Vector unit T :=
  if capacity_ (data_ this) <? size_ rhs then
    match Vector_copy operator_new rhs with
    | Undefined => Undefined
    | Raised e _ lk => Raised e this lk
    | Normal rhs_copy _ lk =>
        (* Swap(rhs_copy); rhs_copy, now the old [*this], is destroyed *)
        let '(this', rhs_copy') := Swap this rhs_copy in
        match Vector_destroy rhs_copy' with
        | Some lk' => Normal tt this' (lk ++ lk')
        | None => Undefined
        end
    end
  else
    let i := Nat.min (size_ rhs) (size_ this) in
    if (INT_MAX <? N.of_nat i)%N then Undefined else
    match copy_assign_loop (buffer_ (data_ rhs)) (buffer_ (data_ this)) 0 i with
    | None => Undefined
    | Some buf =>
        match uninitialized_n by_copy (buffer_ (data_ rhs)) i (size_ rhs - i)
                              buf i with
        | Undef => Undefined
        | Thrown (_, buf') => Raised element_exn (store this buf') []
        | Done (_, buf') =>
            match destroy_n buf' i (size_ this - i) with
            | None => Undefined
            | Some buf'' =>
                Normal tt {| data_ := data_ (store this buf'');
                             size_ := size_ rhs |} []
            end
        end
    end.

(** [void Reserve(size_t new_capacity)] *)
Definition Reserve (operator_new : nat → bool) (new_capacity : nat)
    (v : Vector) : outcome Vector unit T :=
  if new_capacity <=? capacity_ (data_ v) then Normal tt v []
  else
    match RawMemory_sized operator_new new_capacity with
    | None => Raised bad_alloc v []
    | Some new_data =>
        match uninitialized_n transfer_rule (buffer_ (data_ v)) 0 (size_ v)
                              (buffer_ new_data) 0 with
        | Undef => Undefined
        | Thrown (old, fresh) =>
            Raised element_exn (store v old) (live_in fresh)
        | Done (old, fresh) =>
            match destroy_n old 0 (size_ v) with
            | None => Undefined
            | Some old' =>
                (* data_.Swap(new_data); then ~RawMemory(new_data) *)
                let '(data, new_data') :=
                  RawMemory_Swap (data_ (store v old'))
                    {| buffer_ := fresh; capacity_ := capacity_ new_data |} in
                Normal tt {| data_ := data; size_ := size_ v |}
                       (RawMemory_release new_data')
            end
        end
    end.

(** [void Resize(size_t new_size)] *)
Definition Resize (operator_new : nat → bool) (new_size : nat) (v : Vector)
  : outcome Vector unit T :=
  match (if capacity_ (data_ v) <? new_size
         then Reserve operator_new new_size v
         else Normal tt v []) with
  | Undefined => Undefined
  | Raised e v' lk => Raised e v' lk
  | Normal _ v' lk =>
      if size_ v' <? new_size then
        match uninitialized_value_construct_n (buffer_ (data_ v')) (size_ v')
                (new_size - size_ v') with
        | Undef => Undefined
        | Thrown buf => Raised element_exn (store v' buf) lk
        | Done buf =>
            Normal tt {| data_ := data_ (store v' buf); size_ := new_size |} lk
        end
      else
        match destroy_n (buffer_ (data_ v')) new_size (size_ v' - new_size) with
        | None => Undefined
        | Some buf =>
            Normal tt {| data_ := data_ (store v' buf); size_ := new_size |} lk
        end
  end.

(** [template <typename Type> void PushBack(Type&& value)] *)
Definition PushBack (operator_new : nat → bool) (value : T) (v : Vector)
  : outcome Vector unit T :=
  if size_ v <? capacity_ (data_ v) then
    (* new (data_ + size_) T(std::forward<Type>(value)); *)
    if ctor_throws value then Raised element_exn v []
    else
      match construct_at (buffer_ (data_ v)) (size_ v) value with
      | None => Undefined
      | Some buf =>
          Normal tt {| data_ := data_ (store v buf); size_ := S (size_ v) |} []
      end
  else
    match RawMemory_sized operator_new
            (if capacity_ (data_ v) =? 0 then 1 else capacity_ (data_ v) * 2) with
    | None => Raised bad_alloc v []
    | Some new_data =>
        (* new (new_data + size_) T(std::forward<Type>(value)); *)
        if ctor_throws value
        then Raised element_exn v (RawMemory_release new_data)
        else
          match construct_at (buffer_ new_data) (size_ v) value with
          | None => Undefined
          | Some fresh =>
              match uninitialized_n transfer_rule (buffer_ (data_ v)) 0
                                   (size_ v) fresh 0 with
              | Undef => Undefined
              | Thrown (old, fresh') =>
                  Raised element_exn (store v old) (live_in fresh')
              | Done (old, fresh') =>
                  match destroy_n old 0 (size_ v) with
                  | None => Undefined
                  | Some old' =>
                      let '(data, new_data') :=
                        RawMemory_Swap (data_ (store v old'))
                          {| buffer_ := fresh';
                             capacity_ := capacity_ new_data |} in
                      Normal tt {| data_ := data; size_ := S (size_ v) |}
                             (RawMemory_release new_data')
                  end
              end
          end
    end.

(** [void PopBack() noexcept] *)
Definition PopBack (v : Vector) : outcome Vector unit T :=
  if 0 <? size_ v then
    match destroy_at (buffer_ (data_ v)) (size_ v - 1) with
    | None => Undefined
    | Some buf =>
        Normal tt {| data_ := data_ (store v buf); size_ := size_ v - 1 |} []
    end
  else Normal tt v [].

(** [template<typename... Args> T& EmplaceBack(Args&&... args)]: the
    reference returned is the slot [size_ - 1] of the new state. *)
Definition EmplaceBack (operator_new : nat → bool) (value : T) (v : Vector)
  : outcome Vector nat T :=
  if size_ v <? capacity_ (data_ v) then
    if ctor_throws value then Raised element_exn v []
    else
      match construct_at (buffer_ (data_ v)) (size_ v) value with
      | None => Undefined
      | Some buf =>
          Normal (S (size_ v) - 1)
                 {| data_ := data_ (store v buf); size_ := S (size_ v) |} []
      end
  else
    match RawMemory_sized operator_new
            (if capacity_ (data_ v) =? 0 then 1 else capacity_ (data_ v) * 2) with
    | None => Raised bad_alloc v []
    | Some new_data =>
        if ctor_throws value
        then Raised element_exn v (RawMemory_release new_data)
        else
          match construct_at (buffer_ new_data) (size_ v) value with
          | None => Undefined
          | Some fresh =>
              match uninitialized_n transfer_rule (buffer_ (data_ v)) 0
                                   (size_ v) fresh 0 with
              | Undef => Undefined
              | Thrown (old, fresh') =>
                  Raised element_exn (store v old) (live_in fresh')
              | Done (old, fresh') =>
                  match destroy_n old 0 (size_ v) with
                  | None => Undefined
                  | Some old' =>
                      let '(data, new_data') :=
                        RawMemory_Swap (data_ (store v old'))
                          {| buffer_ := fresh';
                             capacity_ := capacity_ new_data |} in
                      Normal (S (size_ v) - 1)
                             {| data_ := data; size_ := S (size_ v) |}
                             (RawMemory_release new_data')
                  end
              end
          end
    end.

(** [&data_[pos_number]]: [RawMemory::operator[]] wants an index below the
    capacity. *)
Definition slot_address (v : Vector) (pos_number : nat) : option nat :=
  if pos_number <? capacity_ (data_ v) then Some pos_number else None.

(** [iterator Erase(const_iterator pos)] *)
Definition Erase (pos : nat) (v : Vector) : outcome Vector nat T :=
  let pos_number := pos in
  match assign_forward transfer_rule (buffer_ (data_ v))
                       (pos_number + 1) (size_ v) pos_number with
  | None => Undefined
  | Some buf =>
      match PopBack (store v buf) with
      | Normal _ v' lk =>
          match slot_address v' pos_number with
          | Some it => Normal it v' lk
          | None => Undefined
          end
      | Raised e v' lk => Raised e v' lk
      | Undefined => Undefined
      end
  end.

(** [template <typename... Args> iterator Emplace(const_iterator pos, Args&&... args)] *)
Definition Emplace (operator_new : nat → bool) (pos : nat) (value : T)
    (v : Vector) : outcome Vector nat T :=
  let pos_number := pos in
  if size_ v <? capacity_ (data_ v) then
    if 0 <? size_ v then
      (* T new_el(std::forward<Args>(args)...); *)
      if ctor_throws value then Raised element_exn v []
      else
        (* new (&data_[size_]) T(std::move(data_[size_ - 1])); *)
        match live_at (buffer_ (data_ v)) (size_ v - 1) with
        | None => Undefined
        | Some last =>
            match construct_from transfer_rule last with
            | None => Raised element_exn v []
            | Some (built, remains) =>
                match construct_at
                        (<[size_ v - 1 := Some remains]> (buffer_ (data_ v)))
                        (size_ v) built with
                | None => Undefined
                | Some buf =>
                    (* std::move_backward(begin() + pos_number, end() - 1, end()); *)
                    match assign_backward transfer_rule buf pos_number
                                          (size_ v - 1) (size_ v) with
                    | None => Undefined
                    | Some buf' =>
                        (* data_[pos_number] = std::move(new_el); *)
                        match assign_at buf' pos_number value with
                        | None => Undefined
                        | Some buf'' =>
                            let v' := {| data_ := data_ (store v buf'');
                                         size_ := S (size_ v) |} in
                            match slot_address v' pos_number with
                            | Some it => Normal it v' []
                            | None => Undefined
                            end
                        end
                    end
                end
            end
        end
    else
      (* new (end()) T(std::forward<Args>(args)...); *)
      if ctor_throws value then Raised element_exn v []
      else
        match construct_at (buffer_ (data_ v)) (size_ v) value with
        | None => Undefined
        | Some buf =>
            let v' := {| data_ := data_ (store v buf); size_ := S (size_ v) |} in
            match slot_address v' pos_number with
            | Some it => Normal it v' []
            | None => Undefined
            end
        end
  else
    match RawMemory_sized operator_new
            (if negb (capacity_ (data_ v) =? 0)
             then capacity_ (data_ v) * 2 else 1) with
    | None => Raised bad_alloc v []
    | Some new_data =>
        (* new (new_data.GetAddress() + pos_number) T(std::forward<Args>(args)...); *)
        if ctor_throws value
        then Raised element_exn v (RawMemory_release new_data)
        else
          match construct_at (buffer_ new_data) pos_number value with
          | None => Undefined
          | Some fresh =>
              let finish (old fresh' : list (option T)) :=
                let '(data, new_data') :=
                  RawMemory_Swap (data_ (store v old))
                    {| buffer_ := fresh'; capacity_ := capacity_ new_data |} in
                let v' := {| data_ := data; size_ := S (size_ v) |} in
                match slot_address v' pos_number with
                | Some it => Normal it v' (RawMemory_release new_data')
                | None => Undefined
                end in
              if 0 <? size_ v then
                match uninitialized_range transfer_rule (buffer_ (data_ v))
                        0 pos_number fresh 0 with
                | Undef => Undefined
                | Thrown (old, fresh1) =>
                    Raised element_exn (store v old) (live_in fresh1)
                | Done (old, fresh1) =>
                    match uninitialized_range transfer_rule old
                            pos_number (size_ v) fresh1 (pos_number + 1) with
                    | Undef => Undefined
                    | Thrown (old', fresh2) =>
                        Raised element_exn (store v old') (live_in fresh2)
                    | Done (old', fresh2) =>
                        match destroy_n old' 0 (size_ v) with
                        | None => Undefined
                        | Some old'' => finish old'' fresh2
                        end
                    end
                end
              else finish (buffer_ (data_ v)) fresh
          end
    end.

(** [iterator Insert(const_iterator pos, const T& value)] and
    [iterator Insert(const_iterator pos, T&& value)] *)
Definition Insert (operator_new : nat → bool) (pos : nat) (value : T)
    (v : Vector) : outcome Vector nat T :=
  Emplace operator_new pos value v.

(** [begin()] and [end()] as offsets. *)
Definition begin (v : Vector) : nat := 0.
Definition end_ (v : Vector) : nat := size_ v.

(** ** The representation invariant *)

Definition is_live (s : option T) : bool :=
  match s with Some _ => true | None => false end.

Definition is_raw (s : option T) : bool :=
  match s with Some _ => false | None => true end.

(** The block has [capacity_] slots, slots [0, size_) hold live objects and
    slots [size_, capacity_) are raw memory. *)
Definition well_formed (v : Vector) : bool :=
  (length (buffer_ (data_ v)) =? capacity_ (data_ v))
  && (size_ v <=? capacity_ (data_ v))
  && forallb is_live (take (size_ v) (buffer_ (data_ v)))
  && forallb is_raw (drop (size_ v) (buffer_ (data_ v))).

(** The well-formed vector holding [xs] in a block of [cap] slots. *)
Definition repr (xs : list T) (cap : nat) : Vector :=
  {| data_ := {| buffer_ := (Some <$> xs) ++ replicate (cap - length xs) None;
                 capacity_ := cap |};
     size_ := length xs |}.

(** Whether a transfer of [x] throws. *)
Definition transfer_throws (how : transfer) (x : T) : bool :=
  match how with
  | by_move => move_throws x
  | by_copy => copy_throws x
  end.

(** No transfer of an element of [ys] throws. *)
Definition never_throws (how : transfer) (ys : list T) : Prop :=
  Forall (λ x, transfer_throws how x = false) ys.

(** The vector a failed transfer leaves behind: the sources before the one
    whose constructor threw have been moved from or copied. *)
Definition partly (how : transfer) (ys1 : list T) (y : T) (ys2 : list T)
  : list T :=
  (source_after how <$> ys1) ++ y :: ys2.

(** The slot a backward shift leaves at its first position. *)
Definition shift_head (how : transfer) (z : T) (ys : list T) : T :=
  match ys with
  | [] => z
  | y :: _ => source_after how y
  end.

(** The slot a forward shift leaves at its last position. *)
Definition shift_last (how : transfer) (z : T) (ys : list T) : T :=
  match last ys with
  | None => z
  | Some y => source_after how y
  end.

(** What [Resize] does once the storage is large enough. *)
Definition Resize_tail (new_size : nat) (v' : Vector) (lk : list T)
  : outcome Vector unit T :=
  if size_ v' <? new_size then
    match uninitialized_value_construct_n (buffer_ (data_ v')) (size_ v')
            (new_size - size_ v') with
    | Undef => Undefined
    | Thrown buf => Raised element_exn (store v' buf) lk
    | Done buf =>
        Normal tt {| data_ := data_ (store v' buf); size_ := new_size |} lk
    end
  else
    match destroy_n (buffer_ (data_ v')) new_size (size_ v' - new_size) with
    | None => Undefined
    | Some buf =>
        Normal tt {| data_ := data_ (store v' buf); size_ := new_size |} lk
    end.

(** The state a call leaves the vector in, when its behaviour is defined. *)
Definition state_after {A} (o : outcome Vector A T) : option Vector :=
  match o with
  | Normal _ v _ | Raised _ v _ => Some v
  | Undefined => None
  end.

(** ** Sequences of calls *)

(** [PushBack(e1); PushBack(e2); ...] while no call raises; the result
    carries the capacities seen after each call. *)
Fixpoint PushBack_all (operator_new : nat → bool) (es : list T) (v : Vector)
  : outcome Vector (list nat) T :=
  match es with
  | [] => Normal [] v []
  | e :: es' =>
      match PushBack operator_new e v with
      | Undefined => Undefined
      | Raised ex v' lk => Raised ex v' lk
      | Normal _ v' lk =>
          match PushBack_all operator_new es' v' with
          | Undefined => Undefined
          | Raised ex v'' lk' => Raised ex v'' (lk ++ lk')
          | Normal caps v'' lk' => Normal (Capacity v' :: caps) v'' (lk ++ lk')
          end
      end
  end.

(** The states a program can bring a vector into: it starts from a
    constructor and goes through the public member functions, with any
    behaviour of [operator new]; a call that raises leaves a state too. *)
Inductive public_call : ∀ {A}, (Vector → outcome Vector A T) → Prop :=
| call_subscript_assign index x : public_call (λ v, subscript_assign v index x)
| call_Reserve new n : public_call (Reserve new n)
| call_Resize new n : public_call (Resize new n)
| call_PushBack new x : public_call (PushBack new x)
| call_PopBack : public_call PopBack
| call_EmplaceBack new x : public_call (EmplaceBack new x)
| call_Insert new pos x : public_call (Insert new pos x)
| call_Emplace new pos x : public_call (Emplace new pos x)
| call_Erase pos : public_call (Erase pos).

Inductive reachable : Vector → Prop :=
| reach_default : reachable Vector_default
| reach_sized new size v lk :
    Vector_sized new size = Normal v tt lk → reachable v
| reach_copy new other v lk :
    reachable other → Vector_copy new other = Normal v tt lk → reachable v
| reach_move_new other :
    reachable other → reachable (Vector_move other).1
| reach_move_old other :
    reachable other → reachable (Vector_move other).2
| reach_move_assign_this this other :
    reachable this → reachable other → reachable (move_assign this other).1
| reach_move_assign_other this other :
    reachable this → reachable other → reachable (move_assign this other).2
| reach_copy_assign new rhs this a v' lk :
    reachable rhs → reachable this →
    copy_assign new rhs this = Normal a v' lk → reachable v'
| reach_copy_assign_raised new rhs this e v' lk :
    reachable rhs → reachable this →
    copy_assign new rhs this = Raised e v' lk → reachable v'
| reach_normal {A} (op : Vector → outcome Vector A T) v a v' lk :
    public_call op → reachable v → op v = Normal a v' lk → reachable v'
| reach_raised {A} (op : Vector → outcome Vector A T) v e v' lk :
    public_call op → reachable v → op v = Raised e v' lk → reachable v'.

(** What a call on [v] may do to it: a normal return leaves a well-formed
    vector, leaks nothing and does not lower the capacity; a raise leaves a
    well-formed vector of the same size and does not lower the capacity. *)
Definition orderly {A} (v : Vector) (o : outcome Vector A T) : Prop :=
  match o with
  | Normal _ v' lk =>
      well_formed v' = true ∧ lk = []
      ∧ capacity_ (data_ v) ≤ capacity_ (data_ v')
  | Raised _ v' lk =>
      well_formed v' = true ∧ size_ v' = size_ v
      ∧ capacity_ (data_ v) ≤ capacity_ (data_ v')
  | Undefined => True
  end.

(** ** Sizes chosen by the caller, with the arithmetic of [size_t] *)

Context `{Sized T}.

(** The argument of [operator new(n * sizeof(T))] as [size_t] computes it. *)
Definition requested_bytes (n : nat) : N :=
  ((N.of_nat n * sizeof_T) mod size_t_modulus)%N.

(** The whole slots of a block of that many bytes. *)
Definition block_slots (n : nat) : nat :=
  N.to_nat (requested_bytes n / sizeof_T).

(** [n * sizeof(T)] does not wrap. *)
Definition request_fits (n : nat) : bool :=
  (N.of_nat n * sizeof_T <? size_t_modulus)%N.

(** [Allocate(n)], the block being as large as the bytes asked for. *)
Definition Allocate_size_t (operator_new : nat → bool) (n : nat)
  : option (list (option T)) :=
  if negb (n =? 0)
  then (if operator_new n then Some (replicate (block_slots n) None)
        else None)
  else Some [].

(** [explicit RawMemory(size_t capacity)]: [capacity_] is what was asked
    for, whatever the block holds. *)
Definition RawMemory_sized_size_t (operator_new : nat → bool) (capacity : nat)
  : option RawMemory :=
  match Allocate_size_t operator_new capacity with
  | Some buf => Some {| buffer_ := buf; capacity_ := capacity |}
  | None => None
  end.

(** [explicit Vector(size_t size)] *)
Definition Vector_sized_size_t (operator_new : nat → bool) (size : nat)
  : outcome unit Vector T :=
  match RawMemory_sized_size_t operator_new size with
  | None => Raised bad_alloc tt []
  | Some data =>
      match uninitialized_value_construct_n (buffer_ data) 0 size with
      | Undef => Undefined
      | Thrown buf => Raised element_exn tt (live_in buf)
      | Done buf =>
          Normal {| data_ := {| buffer_ := buf; capacity_ := capacity_ data |};
                    size_ := size |} tt []
      end
  end.

(** [void Reserve(size_t new_capacity)] *)
Definition Reserve_size_t (operator_new : nat → bool) (new_capacity : nat)
    (v : Vector) : outcome Vector unit T :=
  if new_capacity <=? capacity_ (data_ v) then Normal tt v []
  else
    match RawMemory_sized_size_t operator_new new_capacity with
    | None => Raised bad_alloc v []
    | Some new_data =>
        match uninitialized_n transfer_rule (buffer_ (data_ v)) 0 (size_ v)
                              (buffer_ new_data) 0 with
        | Undef => Undefined
        | Thrown (old, fresh) =>
            Raised element_exn (store v old) (live_in fresh)
        | Done (old, fresh) =>
            match destroy_n old 0 (size_ v) with
            | None => Undefined
            | Some old' =>
                let '(data, new_data') :=
                  RawMemory_Swap (data_ (store v old'))
                    {| buffer_ := fresh; capacity_ := capacity_ new_data |} in
                Normal tt {| data_ := data; size_ := size_ v |}
                       (RawMemory_release new_data')
            end
        end
    end.

(** [void Resize(size_t new_size)] *)
Definition Resize_size_t (operator_new : nat → bool) (new_size : nat)
    (v : Vector) : outcome Vector unit T :=
  match (if capacity_ (data_ v) <? new_size
         then Reserve_size_t operator_new new_size v
         else Normal tt v []) with
  | Undefined => Undefined
  | Raised e v' lk => Raised e v' lk
  | Normal _ v' lk =>
      if size_ v' <? new_size then
        match uninitialized_value_construct_n (buffer_ (data_ v')) (size_ v')
                (new_size - size_ v') with
        | Undef => Undefined
        | Thrown buf => Raised element_exn (store v' buf) lk
        | Done buf =>
            Normal tt {| data_ := data_ (store v' buf); size_ := new_size |} lk
        end
      else
        match destroy_n (buffer_ (data_ v')) new_size (size_ v' - new_size) with
        | None => Undefined
        | Some buf =>
            Normal tt {| data_ := data_ (store v' buf); size_ := new_size |} lk
        end
  end.

End Model.

Arguments RawMemory T : clear implicits.
Arguments Vector T : clear implicits.

(** ** Element types used in the examples *)

(** [int]: nothing throws, a moved-from [int] keeps its value. *)
#[export] Instance int_element : Element Z := {|
  value_init := 0%Z;
  value_init_throws := false;
  ctor_throws := λ _, false;
  copy_throws := λ _, false;
  move_throws := λ _, false;
  moved_from := λ x, x;
  is_nothrow_move_constructible := true;
  is_copy_constructible := true;
  nothrow_move_sound := λ _ _, eq_refl
|}.

(** A copyable type whose move constructor is not [noexcept] and whose copy
    constructor throws on the value [13]. *)
Inductive fragile := Fragile (n : nat).

Definition fragile_copy_throws (x : fragile) : bool :=
  match x with Fragile n => n =? 13 end.

#[export] Instance fragile_element : Element fragile := {|
  value_init := Fragile 0;
  value_init_throws := false;
  ctor_throws := λ _, false;
  copy_throws := fragile_copy_throws;
  move_throws := λ _, false;
  moved_from := λ _, Fragile 0;
  is_nothrow_move_constructible := false;
  is_copy_constructible := true;
  nothrow_move_sound := λ _ _, eq_refl
|}.

(** [std::string]: the move constructor is [noexcept] and leaves its source
    empty, as the usual implementations do. *)
#[export] Instance text_element : Element string := {|
  value_init := EmptyString;
  value_init_throws := false;
  ctor_throws := λ _, false;
  copy_throws := λ _, false;
  move_throws := λ _, false;
  moved_from := λ _, EmptyString;
  is_nothrow_move_constructible := true;
  is_copy_constructible := true;
  nothrow_move_sound := λ _ _, eq_refl
|}.

(** A type whose default constructor throws and whose converting
    constructor throws when asked to build 0. *)
Inductive guarded := Guarded (n : nat).

Definition guarded_ctor_throws (x : guarded) : bool :=
  match x with Guarded n => n =? 0 end.

#[export] Instance guarded_element : Element guarded := {|
  value_init := Guarded 0;
  value_init_throws := true;
  ctor_throws := guarded_ctor_throws;
  copy_throws := λ _, false;
  move_throws := λ _, false;
  moved_from := λ x, x;
  is_nothrow_move_constructible := true;
  is_copy_constructible := true;
  nothrow_move_sound := λ _ _, eq_refl
|}.

(** An [int] of four bytes; [fragile] and [guarded] hold one number in
    eight bytes. *)
#[export] Instance int_sized : Sized Z :=
  {| sizeof_T := 4; sizeof_T_pos := eq_refl |}.
#[export] Instance fragile_sized : Sized fragile :=
  {| sizeof_T := 8; sizeof_T_pos := eq_refl |}.
#[export] Instance guarded_sized : Sized guarded :=
  {| sizeof_T := 8; sizeof_T_pos := eq_refl |}.

Definition always_granted (n : nat) : bool := true.
Definition never_granted (n : nat) : bool := false.

(** * Proofs *)

(** ** Slots of a block *)

Section Slots.
Context {T : Type} `{Element T}.
Implicit Types (buf pre post mid : list (option T)) (xs ys : list T).

Lemma snoc_app {A} (l : list A) (x : A) (k : list A) :
  l ++ x :: k = (l ++ [x]) ++ k.
Proof. by rewrite <- app_assoc. Qed.

Lemma live_at_middle pre s post i :
  i = length pre → live_at (pre ++ s :: post) i = s.
Proof.
  intros ->. unfold live_at.
  rewrite list_lookup_middle by done. by destruct s.
Qed.

Lemma insert_middle pre (s s' : option T) post i :
  i = length pre → <[i := s']> (pre ++ s :: post) = pre ++ s' :: post.
Proof.
  intros ->. rewrite insert_app_r_alt by lia. by rewrite Nat.sub_diag.
Qed.

Lemma construct_at_middle pre s post i x :
  i = length pre →
  construct_at (pre ++ s :: post) i x = Some (pre ++ Some x :: post).
Proof.
  intros Hi. unfold construct_at.
  destruct (Nat.ltb_spec i (length (pre ++ s :: post))) as [_|Hge].
  - by rewrite insert_middle.
  - rewrite length_app in Hge. simpl in Hge. lia.
Qed.

Lemma construct_at_head s post x :
  construct_at (s :: post) 0 x = Some (Some x :: post).
Proof. by apply (construct_at_middle []). Qed.

Lemma construct_at_Some buf i x buf' :
  construct_at buf i x = Some buf' →
  i < length buf ∧ buf' = <[i := Some x]> buf.
Proof.
  unfold construct_at. destruct (Nat.ltb_spec i (length buf)); naive_solver.
Qed.

Lemma assign_at_middle pre y post i x :
  i = length pre →
  assign_at (pre ++ Some y :: post) i x = Some (pre ++ Some x :: post).
Proof.
  intros Hi. unfold assign_at.
  rewrite live_at_middle by done. by rewrite insert_middle.
Qed.

Lemma destroy_at_middle pre y post i :
  i = length pre →
  destroy_at (pre ++ Some y :: post) i = Some (pre ++ None :: post).
Proof.
  intros Hi. unfold destroy_at.
  rewrite live_at_middle by done. by rewrite insert_middle.
Qed.

Lemma destroy_n_live ys : ∀ pre post first,
  first = length pre →
  destroy_n (pre ++ (Some <$> ys) ++ post) first (length ys)
  = Some (pre ++ replicate (length ys) None ++ post).
Proof.
  induction ys as [|y ys IH]; intros pre post first ->; simpl; [done|].
  rewrite destroy_at_middle by done.
  rewrite snoc_app, IH by (rewrite length_app; simpl; lia).
  by rewrite <- app_assoc.
Qed.

Lemma live_in_app buf1 buf2 : live_in (buf1 ++ buf2) = live_in buf1 ++ live_in buf2.
Proof. apply omap_app. Qed.

Lemma live_in_live xs : live_in (Some <$> xs) = xs.
Proof.
  unfold live_in. induction xs as [|x xs IH]; simpl; [done|]. by f_equal.
Qed.

Lemma live_in_raw n : live_in (replicate n (@None T)) = [].
Proof. unfold live_in. induction n; simpl; auto. Qed.

Lemma construct_from_eq how x :
  construct_from how x
  = if transfer_throws how x then None else Some (x, source_after how x).
Proof. by destruct how. Qed.

(** ** The library algorithms on blocks of live and raw slots *)

Lemma first_throw how ys :
  never_throws how ys ∨
  ∃ ys1 y ys2, ys = ys1 ++ y :: ys2 ∧ never_throws how ys1
               ∧ transfer_throws how y = true.
Proof.
  induction ys as [|x ys IH]; [left; constructor|].
  destruct (transfer_throws how x) eqn:Hx.
  - right. exists [], x, ys. repeat split; [constructor | done].
  - destruct IH as [Hall | (ys1 & y & ys2 & -> & Hok & Hy)].
    + left. by constructor.
    + right. exists (x :: ys1), y, ys2. repeat split; [by constructor | done].
Qed.

Lemma uninitialized_loop_ok how ys : ∀ spre spost dpre mid dpost first cur,
  never_throws how ys →
  length mid = length ys → first = length spre → cur = length dpre →
  uninitialized_loop how (spre ++ (Some <$> ys) ++ spost) first (length ys)
                     (dpre ++ mid ++ dpost) cur
  = Done (spre ++ (Some <$> (source_after how <$> ys)) ++ spost,
          dpre ++ (Some <$> ys) ++ dpost, cur + length ys).
Proof.
  induction ys as [|y ys IH];
    intros spre spost dpre mid dpost first cur Hok Hlen -> ->.
  - destruct mid; [|done]. simpl. by rewrite Nat.add_0_r.
  - destruct mid as [|m mid]; [done|]. simpl in Hlen.
    apply Forall_cons in Hok as [Hy Hys]. simpl.
    rewrite live_at_middle, construct_from_eq, Hy by done.
    rewrite construct_at_middle, insert_middle by done.
    rewrite (snoc_app spre), (snoc_app dpre).
    rewrite (IH _ spost _ mid dpost);
      [| done | lia | rewrite length_app; simpl; lia ..].
    rewrite <- !app_assoc. simpl. do 2 f_equal. lia.
Qed.

Lemma uninitialized_loop_throw how ys1 y n :
  ∀ spre spost dpre mid dpost first cur,
  never_throws how ys1 → transfer_throws how y = true →
  length mid = length ys1 → first = length spre → cur = length dpre →
  uninitialized_loop how (spre ++ (Some <$> ys1) ++ Some y :: spost) first
                     (length ys1 + S n) (dpre ++ mid ++ dpost) cur
  = Thrown (spre ++ (Some <$> (source_after how <$> ys1)) ++ Some y :: spost,
            dpre ++ (Some <$> ys1) ++ dpost, cur + length ys1).
Proof.
  induction ys1 as [|x ys1 IH];
    intros spre spost dpre mid dpost first cur Hok Hy Hlen -> ->.
  - destruct mid; [|done]. simpl.
    rewrite live_at_middle, construct_from_eq, Hy by done.
    by rewrite Nat.add_0_r.
  - destruct mid as [|m mid]; [done|]. simpl in Hlen.
    apply Forall_cons in Hok as [Hx Hys]. simpl.
    rewrite live_at_middle, construct_from_eq, Hx by done.
    rewrite construct_at_middle, insert_middle by done.
    rewrite (snoc_app spre), (snoc_app dpre).
    rewrite (IH _ spost _ mid dpost);
      [| done | done | lia | rewrite length_app; simpl; lia ..].
    rewrite <- !app_assoc. simpl. do 2 f_equal. lia.
Qed.

Lemma uninitialized_n_ok how ys spre spost dpre mid dpost first d_first :
  never_throws how ys →
  length mid = length ys → first = length spre → d_first = length dpre →
  uninitialized_n how (spre ++ (Some <$> ys) ++ spost) first (length ys)
                  (dpre ++ mid ++ dpost) d_first
  = Done (spre ++ (Some <$> (source_after how <$> ys)) ++ spost,
          dpre ++ (Some <$> ys) ++ dpost).
Proof.
  intros. unfold uninitialized_n. by rewrite uninitialized_loop_ok.
Qed.

Lemma uninitialized_n_throw how ys1 y n spre spost dpre mid dpost first d_first :
  never_throws how ys1 → transfer_throws how y = true →
  length mid = length ys1 → first = length spre → d_first = length dpre →
  uninitialized_n how (spre ++ (Some <$> ys1) ++ Some y :: spost) first
                  (length ys1 + S n) (dpre ++ mid ++ dpost) d_first
  = Thrown (spre ++ (Some <$> (source_after how <$> ys1)) ++ Some y :: spost,
            dpre ++ replicate (length ys1) None ++ dpost).
Proof.
  intros. unfold uninitialized_n. rewrite uninitialized_loop_throw by done.
  replace (d_first + length ys1 - d_first) with (length ys1) by lia.
  by rewrite destroy_n_live.
Qed.

Lemma value_construct_loop_ok n : ∀ pre mid post cur,
  value_init_throws = false → length mid = n → cur = length pre →
  value_construct_loop (pre ++ mid ++ post) cur n
  = Done (pre ++ replicate n (Some value_init) ++ post, cur + n).
Proof.
  induction n as [|n IH]; intros pre mid post cur Hv Hlen ->.
  - destruct mid; [|done]. simpl. by rewrite Nat.add_0_r.
  - destruct mid as [|m mid]; [done|]. simpl in Hlen. simpl. rewrite Hv.
    rewrite construct_at_middle by done.
    rewrite (snoc_app pre).
    rewrite (IH _ mid post); [| done | lia | rewrite length_app; simpl; lia].
    rewrite <- !app_assoc. simpl. do 2 f_equal. lia.
Qed.

Lemma uninitialized_value_construct_n_ok n pre mid post first :
  value_init_throws = false → length mid = n → first = length pre →
  uninitialized_value_construct_n (pre ++ mid ++ post) first n
  = Done (pre ++ replicate n (Some value_init) ++ post).
Proof.
  intros. unfold uninitialized_value_construct_n.
  by rewrite value_construct_loop_ok.
Qed.

Lemma uninitialized_value_construct_n_throw buf first n :
  value_init_throws = true →
  uninitialized_value_construct_n buf first (S n) = Thrown buf.
Proof.
  intros Hv. unfold uninitialized_value_construct_n. simpl.
  by rewrite Hv, Nat.sub_diag.
Qed.

Lemma shift_head_snoc how z ys y :
  shift_head how z (ys ++ [y]) = shift_head how (source_after how y) ys.
Proof. by destruct ys. Qed.

Lemma assign_backward_loop_live how ys : ∀ pre z post last d_last,
  last = length pre + length ys → d_last = S last →
  assign_backward_loop how (pre ++ (Some <$> ys) ++ Some z :: post)
                       (length ys) last d_last
  = Some (pre ++ Some (shift_head how z ys) :: (Some <$> ys) ++ post).
Proof.
  induction ys as [|y ys IH] using rev_ind; intros pre z post last d_last -> ->.
  - done.
  - rewrite length_app, fmap_app. simpl.
    replace (length ys + 1) with (S (length ys)) by lia.
    replace (length pre + S (length ys)) with (S (length pre + length ys)) by lia.
    simpl.
    set (P := pre ++ (Some <$> ys)).
    assert (HP : length P = length pre + length ys)
      by (unfold P; by rewrite length_app, length_fmap).
    replace (pre ++ ((Some <$> ys) ++ [Some y]) ++ Some z :: post)
      with (P ++ Some y :: Some z :: post)
      by (unfold P; by rewrite <- !app_assoc).
    rewrite live_at_middle by done.
    rewrite (snoc_app P), assign_at_middle by (rewrite length_app; simpl; lia).
    rewrite <- (snoc_app P), insert_middle by done.
    unfold P. rewrite <- app_assoc.
    rewrite (IH pre (source_after how y) (Some y :: post)) by done.
    rewrite shift_head_snoc. by rewrite <- !app_assoc.
Qed.

Lemma shift_last_cons how z y ys :
  shift_last how z (y :: ys) = shift_last how (source_after how y) ys.
Proof.
  unfold shift_last. destruct ys as [|t ys]; [done|].
  change (last (y :: t :: ys)) with (last (t :: ys)).
  destruct (last (t :: ys)) eqn:E; [done|]. by apply last_None in E.
Qed.

Lemma assign_forward_loop_live how ys : ∀ pre z post first d_first,
  d_first = length pre → first = S d_first →
  assign_forward_loop how (pre ++ Some z :: (Some <$> ys) ++ post)
                      (length ys) first d_first
  = Some (pre ++ (Some <$> ys) ++ Some (shift_last how z ys) :: post).
Proof.
  induction ys as [|y ys IH]; intros pre z post first d_first -> ->.
  - done.
  - simpl.
    rewrite (snoc_app pre), live_at_middle by (rewrite length_app; simpl; lia).
    rewrite <- (snoc_app pre), assign_at_middle by done.
    rewrite (snoc_app pre), insert_middle by (rewrite length_app; simpl; lia).
    rewrite (IH _ (source_after how y) post);
      [| rewrite ?length_app; simpl; lia ..].
    rewrite shift_last_cons. by rewrite <- !app_assoc.
Qed.

Lemma copy_assign_loop_live xs : ∀ spre spost dpre ys dpost i,
  length ys = length xs → i = length spre → i = length dpre →
  copy_assign_loop (spre ++ (Some <$> xs) ++ spost)
                   (dpre ++ (Some <$> ys) ++ dpost) i (length xs)
  = Some (dpre ++ (Some <$> xs) ++ dpost).
Proof.
  induction xs as [|x xs IH]; intros spre spost dpre ys dpost i Hlen Hs Hd.
  - by destruct ys.
  - destruct ys as [|y ys]; [done|]. simpl in Hlen. simpl.
    rewrite live_at_middle, assign_at_middle by done.
    rewrite (snoc_app spre), (snoc_app dpre).
    rewrite (IH _ spost _ ys dpost); [| lia | rewrite length_app; simpl; lia ..].
    by rewrite <- !app_assoc.
Qed.

End Slots.

(** ** Well-formed vectors *)

Section Vectors.
Context {T : Type} `{Element T}.
Implicit Types (buf pre post mid : list (option T)) (xs ys : list T).
Implicit Types (v : Vector T) (new : nat → bool).

(** Settles the comparisons of natural numbers a definition branches on. *)
Ltac nat_tests :=
  repeat match goal with
  | |- context [?a <? ?b] =>
      first [ rewrite (proj2 (Nat.ltb_lt a b)) by (simpl; lia)
            | rewrite (proj2 (Nat.ltb_ge a b)) by (simpl; lia) ]
  | |- context [?a <=? ?b] =>
      first [ rewrite (proj2 (Nat.leb_le a b)) by (simpl; lia)
            | rewrite (proj2 (Nat.leb_gt a b)) by (simpl; lia) ]
  | |- context [?a =? ?b] =>
      first [ rewrite (proj2 (Nat.eqb_eq a b)) by (simpl; lia)
            | rewrite (proj2 (Nat.eqb_neq a b)) by (simpl; lia) ]
  end.

Lemma all_live buf : forallb is_live buf = true → buf = Some <$> live_in buf.
Proof.
  unfold live_in. induction buf as [|[x|] buf IH]; simpl; intros Hb; try done.
  f_equal. auto.
Qed.

Lemma all_raw buf :
  forallb is_raw buf = true → buf = replicate (length buf) None.
Proof.
  induction buf as [|[x|] buf IH]; simpl; intros Hb; try done.
  f_equal. auto.
Qed.

Lemma forallb_live xs : forallb is_live (Some <$> xs) = true.
Proof. by induction xs. Qed.

Lemma forallb_raw n : forallb is_raw (replicate n (@None T)) = true.
Proof. by induction n. Qed.

Lemma contents_repr xs cap : contents (repr xs cap) = xs.
Proof.
  unfold contents, repr. simpl.
  rewrite take_app_length' by (by rewrite length_fmap).
  apply live_in_live.
Qed.

Lemma well_formed_repr xs cap :
  length xs ≤ cap → well_formed (repr xs cap) = true.
Proof.
  intros Hle. unfold well_formed, repr. simpl.
  rewrite length_app, length_fmap, length_replicate.
  rewrite take_app_length', drop_app_length' by (by rewrite length_fmap).
  rewrite forallb_live, forallb_raw. nat_tests. done.
Qed.

Lemma well_formed_inv v :
  well_formed v = true →
  length (contents v) = size_ v ∧ size_ v ≤ capacity_ (data_ v)
  ∧ v = repr (contents v) (capacity_ (data_ v)).
Proof.
  destruct v as [[buf cap] sz]. unfold well_formed, contents, repr. simpl.
  rewrite !andb_true_iff, Nat.eqb_eq, Nat.leb_le.
  intros [[[Hlen Hle] Hl] Hr].
  apply all_live in Hl. apply all_raw in Hr.
  rewrite length_drop in Hr.
  assert (Hsz : length (live_in (take sz buf)) = sz).
  { rewrite <- (length_fmap Some), <- Hl, length_take. lia. }
  repeat split; [done | done |].
  rewrite Hsz, <- Hl, <- Hlen, <- Hr. by rewrite take_drop.
Qed.

Lemma raw_split n k :
  k < n →
  replicate n (@None T) = replicate k None ++ None :: replicate (n - S k) None.
Proof.
  intros Hk. replace n with (k + S (n - S k)) at 1 by lia.
  by rewrite replicate_add.
Qed.

Lemma raw_spare n : 0 < n → replicate n (@None T) = None :: replicate (n - 1) None.
Proof. intros Hn. destruct n; [lia|]. simpl. by rewrite Nat.sub_0_r. Qed.

Lemma repr_snoc xs x cap :
  length xs < cap →
  {| data_ := {| buffer_ := (Some <$> xs) ++ Some x
                            :: replicate (cap - S (length xs)) None;
                 capacity_ := cap |};
     size_ := S (length xs) |} = repr (xs ++ [x]) cap.
Proof.
  intros Hlt. unfold repr. rewrite fmap_app, length_app, <- app_assoc. simpl.
  by replace (length xs + 1) with (S (length xs)) by lia.
Qed.

Lemma partly_length how ys1 y ys2 :
  length (partly how ys1 y ys2) = length (ys1 ++ y :: ys2).
Proof. unfold partly. by rewrite !length_app, length_fmap. Qed.

Lemma partly_app how xs1 zs y ys2 :
  (source_after how <$> xs1) ++ partly how zs y ys2
  = partly how (xs1 ++ zs) y ys2.
Proof. unfold partly. by rewrite fmap_app, <- app_assoc. Qed.

Lemma partly_copy ys1 y ys2 : partly by_copy ys1 y ys2 = ys1 ++ y :: ys2.
Proof. unfold partly. simpl. by rewrite list_fmap_id. Qed.

(** *** Transfers of a whole vector into fresh storage *)

Lemma transfer_all_ok how xs spost dpost :
  never_throws how xs →
  uninitialized_n how ((Some <$> xs) ++ spost) 0 (length xs)
                  (replicate (length xs) None ++ dpost) 0
  = Done ((Some <$> (source_after how <$> xs)) ++ spost,
          (Some <$> xs) ++ dpost).
Proof.
  intros Hok.
  apply (uninitialized_n_ok how xs [] spost [] _ dpost 0 0 Hok);
    [by rewrite length_replicate | done | done].
Qed.

Lemma transfer_all_throw how ys1 y ys2 spost n m dpost :
  never_throws how ys1 → transfer_throws how y = true →
  length ys1 < n → length ys1 ≤ m →
  uninitialized_n how ((Some <$> ys1 ++ y :: ys2) ++ spost) 0 n
                  (replicate m None ++ dpost) 0
  = Thrown ((Some <$> partly how ys1 y ys2) ++ spost,
            replicate m None ++ dpost).
Proof.
  intros Hok Hy Hn Hm. unfold partly.
  rewrite !fmap_app, !fmap_cons, <- !app_assoc. simpl.
  replace n with (length ys1 + S (n - S (length ys1))) by lia.
  replace m with (length ys1 + (m - length ys1)) by lia.
  rewrite replicate_add, <- app_assoc.
  apply (uninitialized_n_throw how ys1 y _ [] _ [] _ _ 0 0 Hok Hy);
    [by rewrite length_replicate | done | done].
Qed.

Lemma destroy_all ys post :
  destroy_n ((Some <$> ys) ++ post) 0 (length ys)
  = Some (replicate (length ys) None ++ post).
Proof. by apply (destroy_n_live ys [] post 0). Qed.

Lemma destroy_all_n ys post n :
  n = length ys →
  destroy_n ((Some <$> ys) ++ post) 0 n = Some (replicate n None ++ post).
Proof. intros ->. apply destroy_all. Qed.

Lemma live_in_raw_app n post : live_in (replicate n (@None T) ++ post) = live_in post.
Proof. by rewrite live_in_app, live_in_raw. Qed.

Lemma growth_eq cap :
  (if cap =? 0 then 1 else cap * 2) = Nat.max 1 (2 * cap).
Proof. destruct cap; simpl; lia. Qed.

Lemma growth_eq' cap :
  (if negb (cap =? 0) then cap * 2 else 1) = Nat.max 1 (2 * cap).
Proof. destruct cap; simpl; lia. Qed.

Lemma RawMemory_sized_granted new n :
  0 < n → new n = true →
  RawMemory_sized new n
  = Some {| buffer_ := replicate n (@None T); capacity_ := n |}.
Proof.
  intros Hn Hnew. unfold RawMemory_sized, Allocate. nat_tests. simpl.
  by rewrite Hnew.
Qed.

Lemma RawMemory_sized_refused new n :
  0 < n → new n = false → @RawMemory_sized T new n = None.
Proof.
  intros Hn Hnew. unfold RawMemory_sized, Allocate. nat_tests. simpl.
  by rewrite Hnew.
Qed.

Lemma vector_eq buf buf' cap sz sz' :
  buf = buf' → sz = sz' →
  {| data_ := {| buffer_ := buf; capacity_ := cap |}; size_ := sz |}
  = {| data_ := {| buffer_ := buf'; capacity_ := cap |}; size_ := sz' |}.
Proof. by intros -> ->. Qed.

(** Two blocks that differ in how the count of their raw tail is written. *)
Ltac raw_tail :=
  repeat first [ apply (f_equal (app _)) | apply (f_equal (cons _)) ];
  apply (f_equal (λ n, replicate n None)); lia.

Ltac same_state :=
  f_equal; try lia; try (apply vector_eq; [raw_tail | lia]).

Ltac fields :=
  unfold RawMemory_release, RawMemory_Swap, repr, store;
  cbn [data_ size_ capacity_ buffer_ fst snd].

(** *** [EmplaceBack] and [PushBack] *)

Lemma EmplaceBack_spare_throw new x xs cap :
  length xs < cap → ctor_throws x = true →
  EmplaceBack new x (repr xs cap) = Raised element_exn (repr xs cap) [].
Proof.
  intros Hlt Hx. unfold EmplaceBack. fields. nat_tests. by rewrite Hx.
Qed.

Lemma EmplaceBack_spare new x xs cap :
  length xs < cap → ctor_throws x = false →
  EmplaceBack new x (repr xs cap)
  = Normal (length xs) (repr (xs ++ [x]) cap) [].
Proof.
  intros Hlt Hx. unfold EmplaceBack. fields. nat_tests. rewrite Hx.
  rewrite (raw_spare (cap - length xs)) by lia.
  rewrite construct_at_middle by (by rewrite length_fmap). fields.
  replace (cap - length xs - 1) with (cap - S (length xs)) by lia.
  rewrite repr_snoc by done. f_equal. lia.
Qed.

Lemma EmplaceBack_refused new x xs cap :
  cap ≤ length xs → new (Nat.max 1 (2 * cap)) = false →
  EmplaceBack new x (repr xs cap) = Raised bad_alloc (repr xs cap) [].
Proof.
  intros Hle Hnew. unfold EmplaceBack. fields. nat_tests.
  rewrite growth_eq. by rewrite RawMemory_sized_refused by (done || lia).
Qed.

Lemma EmplaceBack_full_throw new x xs cap :
  cap ≤ length xs → new (Nat.max 1 (2 * cap)) = true → ctor_throws x = true →
  EmplaceBack new x (repr xs cap) = Raised element_exn (repr xs cap) [].
Proof.
  intros Hle Hnew Hx. unfold EmplaceBack. fields. nat_tests.
  rewrite growth_eq, RawMemory_sized_granted by (done || lia).
  rewrite Hx. fields. by rewrite live_in_raw.
Qed.

Lemma EmplaceBack_grow new x xs :
  new (Nat.max 1 (2 * length xs)) = true → ctor_throws x = false →
  never_throws transfer_rule xs →
  EmplaceBack new x (repr xs (length xs))
  = Normal (length xs) (repr (xs ++ [x]) (Nat.max 1 (2 * length xs))) [].
Proof.
  intros Hnew Hx Hok. unfold EmplaceBack. fields. nat_tests.
  rewrite growth_eq, RawMemory_sized_granted by (done || lia).
  rewrite Hx. fields.
  rewrite (raw_split _ (length xs)) by lia.
  rewrite construct_at_middle by (by rewrite length_replicate).
  rewrite transfer_all_ok by done.
  rewrite destroy_all_n by (by rewrite length_fmap). fields.
  rewrite live_in_raw_app, live_in_raw.
  rewrite repr_snoc by lia. f_equal. lia.
Qed.

Lemma EmplaceBack_grow_throw new x ys1 y ys2 :
  let xs := ys1 ++ y :: ys2 in
  new (Nat.max 1 (2 * length xs)) = true → ctor_throws x = false →
  never_throws transfer_rule ys1 → transfer_throws transfer_rule y = true →
  EmplaceBack new x (repr xs (length xs))
  = Raised element_exn
           (repr (partly transfer_rule ys1 y ys2) (length xs)) [x].
Proof.
  intros xs Hnew Hx Hok Hy. unfold EmplaceBack. fields. nat_tests.
  rewrite growth_eq, RawMemory_sized_granted by (done || lia).
  rewrite Hx. fields.
  assert (Hlen : length xs = length ys1 + S (length ys2))
    by (unfold xs; rewrite length_app; simpl; lia).
  rewrite (raw_split _ (length xs)) by lia.
  rewrite construct_at_middle by (by rewrite length_replicate).
  unfold xs at 1. rewrite transfer_all_throw by (done || lia).
  rewrite live_in_raw_app. simpl. rewrite live_in_raw.
  by rewrite partly_length.
Qed.

Lemma PushBack_EmplaceBack new x v :
  PushBack new x v
  = match EmplaceBack new x v with
    | Normal _ v' lk => Normal tt v' lk
    | Raised e v' lk => Raised e v' lk
    | Undefined => Undefined
    end.
Proof.
  unfold PushBack, EmplaceBack. repeat case_match; congruence.
Qed.

(** *** [Reserve] *)

Lemma Reserve_enough new n v :
  n ≤ Capacity v → Reserve new n v = Normal tt v [].
Proof. intros Hle. unfold Reserve, Capacity in *. by nat_tests. Qed.

Lemma Reserve_refused new n v :
  Capacity v < n → new n = false → Reserve new n v = Raised bad_alloc v [].
Proof.
  intros Hlt Hnew. unfold Reserve, Capacity in *. nat_tests.
  by rewrite RawMemory_sized_refused by (done || lia).
Qed.

Lemma Reserve_grow new n xs cap :
  length xs ≤ cap → cap < n → new n = true →
  never_throws transfer_rule xs →
  Reserve new n (repr xs cap) = Normal tt (repr xs n) [].
Proof.
  intros Hle Hlt Hnew Hok. unfold Reserve. fields. nat_tests.
  rewrite RawMemory_sized_granted by (done || lia). fields.
  replace n with (length xs + (n - length xs)) at 1 by lia.
  rewrite replicate_add, transfer_all_ok by done.
  rewrite destroy_all_n by (by rewrite length_fmap). fields.
  by rewrite !live_in_raw_app, live_in_raw.
Qed.

Lemma Reserve_grow_throw new n ys1 y ys2 cap :
  let xs := ys1 ++ y :: ys2 in
  length xs ≤ cap → cap < n → new n = true →
  never_throws transfer_rule ys1 → transfer_throws transfer_rule y = true →
  Reserve new n (repr xs cap)
  = Raised element_exn (repr (partly transfer_rule ys1 y ys2) cap) [].
Proof.
  intros xs Hle Hlt Hnew Hok Hy. unfold Reserve. fields. nat_tests.
  rewrite RawMemory_sized_granted by (done || lia). fields.
  assert (Hlen : length xs = length ys1 + S (length ys2))
    by (unfold xs; rewrite length_app; simpl; lia).
  rewrite <- (app_nil_r (replicate n None)).
  unfold xs at 1. rewrite transfer_all_throw by (done || lia).
  rewrite live_in_raw_app. simpl. by rewrite partly_length.
Qed.

(** *** [PopBack] and [Erase] *)

Lemma PopBack_empty v : size_ v = 0 → PopBack v = Normal tt v [].
Proof. intros Hs. unfold PopBack. by rewrite Hs. Qed.

Lemma PopBack_snoc xs x cap :
  length (xs ++ [x]) ≤ cap →
  PopBack (repr (xs ++ [x]) cap) = Normal tt (repr xs cap) [].
Proof.
  rewrite length_app. simpl. intros Hle. unfold PopBack. fields.
  rewrite length_app, fmap_app, <- app_assoc. simpl. nat_tests.
  rewrite destroy_at_middle by (rewrite length_fmap; lia). fields.
  rewrite (raw_spare (cap - length xs)) by lia.
  do 3 f_equal; [do 3 f_equal|]; lia.
Qed.

Lemma Erase_middle xs1 x xs2 cap :
  length (xs1 ++ x :: xs2) ≤ cap →
  Erase (length xs1) (repr (xs1 ++ x :: xs2) cap)
  = Normal (length xs1) (repr (xs1 ++ xs2) cap) [].
Proof.
  rewrite length_app. cbn [length]. intros Hle. unfold Erase. fields.
  rewrite !length_app, !fmap_app, fmap_cons, <- !app_assoc. cbn [length app].
  unfold assign_forward. nat_tests.
  replace (length xs1 + S (length xs2) - (length xs1 + 1))
    with (length xs2) by lia.
  rewrite assign_forward_loop_live by (rewrite ?length_fmap; lia).
  unfold PopBack. fields. nat_tests.
  rewrite app_assoc, destroy_at_middle
    by (rewrite length_app, !length_fmap; lia).
  unfold slot_address. fields. nat_tests.
  rewrite <- app_assoc.
  rewrite (raw_spare (cap - (length xs1 + length xs2))) by lia.
  do 3 f_equal; [do 4 f_equal|]; lia.
Qed.

Lemma Erase_outside pos xs cap :
  length xs ≤ pos → Erase pos (repr xs cap) = Undefined.
Proof.
  intros Hle. unfold Erase, assign_forward. fields. by nat_tests.
Qed.

(** *** [Emplace] with spare capacity *)

Lemma Emplace_spare_ctor_throw new pos x xs cap :
  length xs < cap → ctor_throws x = true →
  Emplace new pos x (repr xs cap) = Raised element_exn (repr xs cap) [].
Proof.
  intros Hlt Hx. unfold Emplace. fields. nat_tests. rewrite Hx.
  by destruct (0 <? length xs).
Qed.

Lemma Emplace_spare_last_throw new pos x xs l cap :
  length (xs ++ [l]) < cap → ctor_throws x = false →
  transfer_throws transfer_rule l = true →
  Emplace new pos x (repr (xs ++ [l]) cap)
  = Raised element_exn (repr (xs ++ [l]) cap) [].
Proof.
  rewrite length_app. cbn [length]. intros Hlt Hx Hl. unfold Emplace. fields.
  rewrite length_app, fmap_app, <- app_assoc. cbn [length]. nat_tests.
  rewrite Hx, fmap_cons. cbn [fmap list_fmap app].
  rewrite live_at_middle by (rewrite length_fmap; lia).
  by rewrite construct_from_eq, Hl.
Qed.

Lemma Emplace_spare_middle new x xs1 ys l cap :
  length (xs1 ++ ys ++ [l]) < cap → ctor_throws x = false →
  transfer_throws transfer_rule l = false →
  Emplace new (length xs1) x (repr (xs1 ++ ys ++ [l]) cap)
  = Normal (length xs1) (repr (xs1 ++ x :: ys ++ [l]) cap) [].
Proof.
  rewrite !length_app. cbn [length]. intros Hlt Hx Hl. unfold Emplace. fields.
  rewrite !length_app, !fmap_app, <- !app_assoc. cbn [length]. nat_tests.
  rewrite Hx, !fmap_cons. cbn [fmap list_fmap app].
  rewrite (raw_spare (cap - _)) by lia.
  set (raw := replicate _ None).
  rewrite (app_assoc (Some <$> xs1)).
  rewrite live_at_middle by (rewrite length_app, !length_fmap; lia).
  rewrite construct_from_eq, Hl.
  rewrite insert_middle by (rewrite length_app, !length_fmap; lia).
  rewrite snoc_app, construct_at_middle
    by (rewrite !length_app, !length_fmap; simpl; lia).
  rewrite <- !app_assoc. cbn [app].
  unfold assign_backward. nat_tests.
  replace (length xs1 + (length ys + 1) - 1 - length xs1)
    with (length ys) by lia.
  rewrite assign_backward_loop_live by (rewrite ?length_fmap; lia).
  rewrite assign_at_middle by (by rewrite length_fmap).
  unfold slot_address. fields. nat_tests.
  rewrite fmap_app, length_app, <- app_assoc. cbn [length app fmap list_fmap].
  unfold raw. do 3 f_equal; [do 5 f_equal|]; lia.
Qed.

Lemma Emplace_spare_outside new pos x xs cap :
  0 < length xs → length xs < cap → length xs ≤ pos →
  (∀ e v lk, Emplace new pos x (repr xs cap) = Raised e v lk → v = repr xs cap)
  ∧ ∀ a v lk, Emplace new pos x (repr xs cap) ≠ Normal a v lk.
Proof.
  intros Hpos Hlt Hle. unfold Emplace, assign_backward. fields. nat_tests.
  split; intros; repeat case_match; congruence.
Qed.

Lemma assign_backward_inverted how buf first last d_last :
  last < first → assign_backward how buf first last d_last = None.
Proof. intros Hlt. unfold assign_backward. by nat_tests. Qed.

Lemma Emplace_end_spare new x xs l cap :
  length (xs ++ [l]) < cap → ctor_throws x = false →
  transfer_throws transfer_rule l = false →
  Emplace new (length (xs ++ [l])) x (repr (xs ++ [l]) cap) = Undefined.
Proof.
  rewrite length_app. cbn [length]. intros Hlt Hx Hl. unfold Emplace. fields.
  rewrite length_app, fmap_app, <- app_assoc. cbn [length]. nat_tests.
  rewrite Hx, fmap_cons. cbn [fmap list_fmap app].
  rewrite live_at_middle by (rewrite length_fmap; lia).
  rewrite construct_from_eq, Hl.
  destruct (construct_at _ _ l) as [buf|]; [|done].
  by rewrite assign_backward_inverted by lia.
Qed.

Lemma Emplace_empty_spare new pos x cap :
  pos < cap → ctor_throws x = false →
  Emplace new pos x (repr [] cap) = Normal pos (repr [x] cap) [].
Proof.
  intros Hlt Hx. unfold Emplace. fields. cbn [length fmap list_fmap app].
  nat_tests. rewrite Hx, Nat.sub_0_r.
  rewrite (raw_spare cap) by lia.
  rewrite construct_at_head.
  unfold slot_address. fields. nat_tests. done.
Qed.

Lemma Emplace_empty_spare_outside new pos x cap :
  0 < cap → cap ≤ pos → ctor_throws x = false →
  Emplace new pos x (repr [] cap) = Undefined.
Proof.
  intros Hc Hle Hx. unfold Emplace. fields. cbn [length fmap list_fmap app].
  nat_tests. rewrite Hx, Nat.sub_0_r.
  rewrite (raw_spare cap) by lia.
  rewrite construct_at_head.
  unfold slot_address. fields. nat_tests. done.
Qed.

(** *** Transfers around a slot that is already taken *)

Lemma transfer_rest_ok how xs2 spre spost dpre x k first d_first :
  never_throws how xs2 →
  first = length spre → d_first = S (length dpre) → length xs2 ≤ k →
  uninitialized_n how (spre ++ (Some <$> xs2) ++ spost) first (length xs2)
                  (dpre ++ Some x :: replicate k None) d_first
  = Done (spre ++ (Some <$> (source_after how <$> xs2)) ++ spost,
          dpre ++ Some x :: (Some <$> xs2)
               ++ replicate (k - length xs2) None).
Proof.
  intros Hok -> -> Hk.
  replace k with (length xs2 + (k - length xs2)) at 1 by lia.
  rewrite replicate_add, (snoc_app dpre).
  rewrite (uninitialized_n_ok how xs2 spre spost (dpre ++ [Some x]));
    [| done | by rewrite length_replicate | done
     | rewrite length_app; simpl; lia].
  by rewrite <- app_assoc.
Qed.

Lemma transfer_rest_throw how zs y ys2 spre spost dpre x k n first d_first :
  never_throws how zs → transfer_throws how y = true →
  first = length spre → d_first = S (length dpre) →
  length zs < n → length zs ≤ k →
  uninitialized_n how (spre ++ (Some <$> zs ++ y :: ys2) ++ spost) first n
                  (dpre ++ Some x :: replicate k None) d_first
  = Thrown (spre ++ (Some <$> partly how zs y ys2) ++ spost,
            dpre ++ Some x :: replicate k None).
Proof.
  intros Hok Hy -> -> Hn Hk. unfold partly.
  rewrite !fmap_app, !fmap_cons, <- !app_assoc. cbn [app].
  replace n with (length zs + S (n - S (length zs))) by lia.
  replace k with (length zs + (k - length zs)) by lia.
  rewrite replicate_add, (snoc_app dpre).
  rewrite (uninitialized_n_throw how zs y _ spre _ (dpre ++ [Some x]));
    [| done | done | by rewrite length_replicate | done
     | rewrite length_app; simpl; lia].
  by rewrite <- app_assoc.
Qed.

Lemma uninitialized_loop_outside how ys n k : ∀ spre dst first cur,
  never_throws how ys → first = length spre →
  uninitialized_loop how (spre ++ (Some <$> ys) ++ replicate k None) first
                     (length ys + S n) dst cur = Undef.
Proof.
  induction ys as [|y ys IH]; intros spre dst first cur Hok ->.
  - cbn [length fmap list_fmap app Nat.add uninitialized_loop].
    destruct k as [|k]; simpl.
    + unfold live_at. rewrite app_nil_r.
      by rewrite lookup_ge_None_2 by lia.
    + by rewrite live_at_middle.
  - apply Forall_cons in Hok as [Hy Hys].
    rewrite fmap_cons. cbn [length Nat.add uninitialized_loop app].
    rewrite live_at_middle, construct_from_eq, Hy by done.
    destruct (construct_at dst cur y) as [dst'|]; [|done].
    rewrite insert_middle by done. rewrite (snoc_app spre).
    apply IH; [done | rewrite length_app; simpl; lia].
Qed.

Lemma transfer_outside how xs k n dst :
  never_throws how xs → length xs < n →
  uninitialized_range how ((Some <$> xs) ++ replicate k None) 0 n dst 0 = Undef.
Proof.
  intros Hok Hn. unfold uninitialized_range, uninitialized_n. nat_tests.
  rewrite Nat.sub_0_r.
  replace n with (length xs + S (n - S (length xs))) by lia.
  by rewrite (uninitialized_loop_outside how xs _ k []).
Qed.

(** *** [Emplace] without spare capacity *)

Lemma Emplace_refused new pos x v :
  Capacity v ≤ size_ v → new (Nat.max 1 (2 * Capacity v)) = false →
  Emplace new pos x v = Raised bad_alloc v [].
Proof.
  unfold Capacity. intros Hle Hnew. unfold Emplace. rewrite growth_eq'. nat_tests.
  by rewrite RawMemory_sized_refused by (done || lia).
Qed.

Lemma Emplace_full_ctor_throw new pos x v :
  Capacity v ≤ size_ v → new (Nat.max 1 (2 * Capacity v)) = true →
  ctor_throws x = true →
  Emplace new pos x v = Raised element_exn v [].
Proof.
  unfold Capacity. intros Hle Hnew Hx. unfold Emplace. rewrite growth_eq'. nat_tests.
  rewrite RawMemory_sized_granted by (done || lia).
  rewrite Hx. fields. by rewrite live_in_raw.
Qed.

Lemma Emplace_full_outside new pos x v :
  Capacity v ≤ size_ v → new (Nat.max 1 (2 * Capacity v)) = true →
  ctor_throws x = false → Nat.max 1 (2 * Capacity v) ≤ pos →
  Emplace new pos x v = Undefined.
Proof.
  unfold Capacity. intros Hle Hnew Hx Hpos. unfold Emplace. rewrite growth_eq'. nat_tests.
  rewrite RawMemory_sized_granted by (done || lia).
  rewrite Hx. fields. unfold construct_at. rewrite length_replicate.
  by nat_tests.
Qed.

Lemma Emplace_empty_grow new x :
  new 1 = true → ctor_throws x = false →
  Emplace new 0 x (repr [] 0) = Normal 0 (repr [x] 1) [].
Proof.
  intros Hnew Hx. unfold Emplace. fields. cbn [length]. nat_tests.
  cbn [negb]. rewrite RawMemory_sized_granted by (done || lia).
  rewrite Hx. done.
Qed.

Lemma Emplace_grow new x xs1 xs2 :
  let xs := xs1 ++ xs2 in
  0 < length xs →
  new (Nat.max 1 (2 * length xs)) = true → ctor_throws x = false →
  never_throws transfer_rule xs →
  Emplace new (length xs1) x (repr xs (length xs))
  = Normal (length xs1)
           (repr (xs1 ++ x :: xs2) (Nat.max 1 (2 * length xs))) [].
Proof.
  intros xs Hpos Hnew Hx Hok.
  assert (Hlen : length xs = length xs1 + length xs2)
    by (unfold xs; by rewrite length_app).
  apply Forall_app in Hok as [Hok1 Hok2].
  unfold Emplace. fields. rewrite growth_eq'. nat_tests.
  rewrite RawMemory_sized_granted by (done || lia).
  rewrite Hx. fields.
  rewrite (raw_split _ (length xs1)) by lia.
  rewrite construct_at_middle by (by rewrite length_replicate).
  unfold uninitialized_range. nat_tests. rewrite Nat.sub_0_r.
  unfold xs at 1. rewrite fmap_app, <- app_assoc.
  rewrite transfer_all_ok by done.
  replace (length xs - length xs1) with (length xs2) by lia.
  rewrite transfer_rest_ok by (rewrite ?length_fmap; done || lia).
  rewrite app_assoc, <- fmap_app.
  rewrite destroy_all_n by (rewrite length_app, !length_fmap; lia).
  fields. unfold slot_address. fields. nat_tests.
  rewrite live_in_raw_app, live_in_raw.
  rewrite length_app, fmap_app, fmap_cons, <- app_assoc. cbn [length app].
  same_state.
Qed.

Lemma Emplace_grow_throw_before new pos x ys1 y ys2 :
  let xs := ys1 ++ y :: ys2 in
  new (Nat.max 1 (2 * length xs)) = true → ctor_throws x = false →
  never_throws transfer_rule ys1 → transfer_throws transfer_rule y = true →
  length ys1 < pos → pos < Nat.max 1 (2 * length xs) →
  Emplace new pos x (repr xs (length xs))
  = Raised element_exn
           (repr (partly transfer_rule ys1 y ys2) (length xs)) [x].
Proof.
  intros xs Hnew Hx Hok Hy Hk Hpos.
  assert (Hlen : length xs = length ys1 + S (length ys2))
    by (unfold xs; rewrite length_app; simpl; lia).
  unfold Emplace. fields. rewrite growth_eq'. nat_tests.
  rewrite RawMemory_sized_granted by (done || lia).
  rewrite Hx. fields.
  rewrite (raw_split _ pos) by lia.
  rewrite construct_at_middle by (by rewrite length_replicate).
  unfold uninitialized_range. nat_tests. rewrite Nat.sub_0_r.
  unfold xs at 1. rewrite transfer_all_throw by (done || lia).
  rewrite live_in_raw_app. simpl. rewrite live_in_raw.
  by rewrite partly_length.
Qed.

Lemma Emplace_grow_throw_after new x xs1 zs y ys2 :
  let xs := xs1 ++ zs ++ y :: ys2 in
  new (Nat.max 1 (2 * length xs)) = true → ctor_throws x = false →
  never_throws transfer_rule (xs1 ++ zs) →
  transfer_throws transfer_rule y = true →
  Emplace new (length xs1) x (repr xs (length xs))
  = Raised element_exn
           (repr (partly transfer_rule (xs1 ++ zs) y ys2) (length xs))
           (xs1 ++ [x]).
Proof.
  intros xs Hnew Hx Hok Hy.
  assert (Hlen : length xs = length xs1 + (length zs + S (length ys2)))
    by (unfold xs; rewrite !length_app; simpl; lia).
  apply Forall_app in Hok as [Hok1 Hok2].
  unfold Emplace. fields. rewrite growth_eq'. nat_tests.
  rewrite RawMemory_sized_granted by (done || lia).
  rewrite Hx. fields.
  rewrite (raw_split _ (length xs1)) by lia.
  rewrite construct_at_middle by (by rewrite length_replicate).
  unfold uninitialized_range. nat_tests. rewrite Nat.sub_0_r.
  unfold xs at 1. rewrite fmap_app, <- app_assoc.
  rewrite transfer_all_ok by done.
  rewrite transfer_rest_throw by (rewrite ?length_fmap; done || lia).
  rewrite live_in_app, live_in_live. simpl. rewrite live_in_raw.
  rewrite partly_length, app_assoc, <- fmap_app, partly_app.
  by replace ((xs1 ++ zs) ++ y :: ys2) with xs
    by (unfold xs; by rewrite <- app_assoc).
Qed.

Lemma Emplace_grow_outside new pos x xs :
  0 < length xs → length xs < pos →
  new (Nat.max 1 (2 * length xs)) = true → ctor_throws x = false →
  never_throws transfer_rule xs →
  Emplace new pos x (repr xs (length xs)) = Undefined.
Proof.
  intros Hpos Hlt Hnew Hx Hok.
  unfold Emplace. fields. rewrite growth_eq'. nat_tests.
  rewrite RawMemory_sized_granted by (done || lia).
  rewrite Hx. fields.
  destruct (construct_at _ pos x) as [fresh|]; [|done].
  by rewrite transfer_outside.
Qed.

(** *** The operations at an arbitrary position *)

Lemma Erase_at pos xs cap :
  pos < length xs → length xs ≤ cap →
  Erase pos (repr xs cap)
  = Normal pos (repr (take pos xs ++ drop (S pos) xs) cap) [].
Proof.
  intros Hpos Hle.
  destruct (lookup_lt_is_Some_2 xs pos Hpos) as [x Hx].
  pose proof (Erase_middle (take pos xs) x (drop (S pos) xs) cap) as E.
  rewrite take_drop_middle, length_take_le in E by (done || lia). by apply E.
Qed.

Lemma Emplace_grow_at new pos x xs :
  0 < length xs → pos ≤ length xs →
  new (Nat.max 1 (2 * length xs)) = true → ctor_throws x = false →
  never_throws transfer_rule xs →
  Emplace new pos x (repr xs (length xs))
  = Normal pos (repr (take pos xs ++ x :: drop pos xs)
                     (Nat.max 1 (2 * length xs))) [].
Proof.
  intros Hlen Hpos Hnew Hx Hok.
  pose proof (Emplace_grow new x (take pos xs) (drop pos xs)) as E.
  cbn zeta in E. rewrite take_drop, length_take_le in E by lia. by apply E.
Qed.

Lemma Emplace_spare_at new pos x xs cap :
  pos < length xs → length xs < cap → ctor_throws x = false →
  (∀ l, last xs = Some l → transfer_throws transfer_rule l = false) →
  Emplace new pos x (repr xs cap)
  = Normal pos (repr (take pos xs ++ x :: drop pos xs) cap) [].
Proof.
  intros Hpos Hlt Hx Hl.
  destruct xs as [|x0 xs0] using rev_ind; [simpl in Hpos; lia|]. clear IHxs0.
  specialize (Hl x0 (last_snoc _ _)).
  rewrite length_app in Hpos, Hlt. simpl in Hpos, Hlt.
  pose proof (Emplace_spare_middle new x (take pos xs0) (drop pos xs0) x0 cap)
    as E.
  rewrite app_assoc, take_drop, length_take_le in E by lia.
  rewrite take_app_le, drop_app_le by lia.
  rewrite length_app in E. apply E; [simpl; lia | done | done].
Qed.

Lemma Emplace_grow_throw_at new pos x ys1 y ys2 :
  let xs := ys1 ++ y :: ys2 in
  new (Nat.max 1 (2 * length xs)) = true → ctor_throws x = false →
  never_throws transfer_rule ys1 → transfer_throws transfer_rule y = true →
  pos < Nat.max 1 (2 * length xs) →
  Emplace new pos x (repr xs (length xs))
  = Raised element_exn
      (repr (partly transfer_rule ys1 y ys2) (length xs))
      ((if pos <=? length ys1 then take pos xs else []) ++ [x]).
Proof.
  intros xs Hnew Hx Hok Hy Hpos.
  destruct (Nat.leb_spec pos (length ys1)) as [Hle|Hgt].
  - pose proof (Emplace_grow_throw_after new x (take pos ys1) (drop pos ys1)
                  y ys2) as E.
    cbn zeta in E.
    rewrite !app_assoc, take_drop, length_take_le in E by lia.
    unfold xs. rewrite take_app_le by lia. by apply E.
  - by apply Emplace_grow_throw_before.
Qed.

(** *** Every call keeps the vector well formed *)

Lemma wf_cases v :
  well_formed v = true → ∃ xs cap, length xs ≤ cap ∧ v = repr xs cap.
Proof.
  intros (Hlen & Hle & Hv)%well_formed_inv.
  exists (contents v), (capacity_ (data_ v)). split; [lia | done].
Qed.

Ltac wf_done :=
  simpl; intros [= <-]; apply well_formed_repr;
  rewrite ?partly_length;
  repeat first [ rewrite length_app in * | rewrite length_take in *
               | rewrite length_drop in * | progress cbn [length] in * ];
  lia.

Lemma EmplaceBack_wf new x v v' :
  well_formed v = true → state_after (EmplaceBack new x v) = Some v' →
  well_formed v' = true.
Proof.
  intros (xs & cap & Hle & ->)%wf_cases.
  destruct (decide (length xs < cap)) as [Hlt|Hge].
  - destruct (ctor_throws x) eqn:Hx.
    + rewrite EmplaceBack_spare_throw by done. wf_done.
    + rewrite EmplaceBack_spare by done. wf_done.
  - assert (cap = length xs) as -> by lia.
    destruct (new (Nat.max 1 (2 * length xs))) eqn:Hnew;
      [| rewrite EmplaceBack_refused by done; wf_done].
    destruct (ctor_throws x) eqn:Hx;
      [rewrite EmplaceBack_full_throw by done; wf_done |].
    destruct (first_throw transfer_rule xs)
      as [Hok | (ys1 & y & ys2 & -> & Hok & Hy)].
    + rewrite EmplaceBack_grow by done. wf_done.
    + rewrite EmplaceBack_grow_throw by done. wf_done.
Qed.

Lemma PushBack_wf new x v v' :
  well_formed v = true → state_after (PushBack new x v) = Some v' →
  well_formed v' = true.
Proof.
  intros Hwf. rewrite PushBack_EmplaceBack.
  pose proof (EmplaceBack_wf new x v v' Hwf) as E.
  by destruct (EmplaceBack new x v).
Qed.

Lemma Reserve_wf new n v v' :
  well_formed v = true → state_after (Reserve new n v) = Some v' →
  well_formed v' = true.
Proof.
  intros Hwf. destruct (decide (n ≤ Capacity v)) as [Hle|Hgt].
  { rewrite Reserve_enough by done. simpl. by intros [= <-]. }
  destruct (new n) eqn:Hnew.
  2: { rewrite Reserve_refused by (done || lia). simpl. by intros [= <-]. }
  revert Hgt. apply wf_cases in Hwf as (xs & cap & Hle & ->).
  unfold Capacity. simpl. intros Hgt.
  destruct (first_throw transfer_rule xs)
    as [Hok | (ys1 & y & ys2 & -> & Hok & Hy)].
  - rewrite Reserve_grow by (done || lia). wf_done.
  - rewrite Reserve_grow_throw by (done || lia).
    rewrite length_app in Hle. simpl in Hle. wf_done.
Qed.

Lemma PopBack_wf v v' :
  well_formed v = true → state_after (PopBack v) = Some v' →
  well_formed v' = true.
Proof.
  intros Hwf. pose proof Hwf as (xs & cap & Hle & ->)%wf_cases.
  destruct xs as [|x xs _] using rev_ind.
  - rewrite PopBack_empty by done. simpl. by intros [= <-].
  - rewrite PopBack_snoc by done. rewrite length_app in Hle. simpl in Hle.
    wf_done.
Qed.

Lemma Erase_wf pos v v' :
  well_formed v = true → state_after (Erase pos v) = Some v' →
  well_formed v' = true.
Proof.
  intros (xs & cap & Hle & ->)%wf_cases.
  destruct (decide (pos < length xs)) as [Hlt|Hge].
  - rewrite Erase_at by done. wf_done.
  - by rewrite Erase_outside by lia.
Qed.

Lemma Emplace_wf new pos x v v' :
  well_formed v = true → state_after (Emplace new pos x v) = Some v' →
  well_formed v' = true.
Proof.
  intros Hwf. pose proof Hwf as (xs & cap & Hle & ->)%wf_cases.
  destruct (decide (length xs < cap)) as [Hlt|Hge].
  - (* spare capacity *)
    destruct (ctor_throws x) eqn:Hx;
      [rewrite Emplace_spare_ctor_throw by done; wf_done |].
    destruct xs as [|l xs _] using rev_ind.
    + simpl in Hlt. destruct (decide (pos < cap)).
      * rewrite Emplace_empty_spare by done. wf_done.
      * by rewrite Emplace_empty_spare_outside by (done || lia).
    + destruct (decide (pos < length (xs ++ [l]))) as [Hpos|Hpos].
      * destruct (transfer_throws transfer_rule l) eqn:Hl;
          [rewrite Emplace_spare_last_throw by done; wf_done |].
        rewrite Emplace_spare_at; [wf_done | done | done | done |].
        intros l'. rewrite last_snoc. by intros [= <-].
      * destruct (Emplace_spare_outside new pos x (xs ++ [l]) cap)
          as [HR HN]; [rewrite length_app; simpl; lia | done | lia |].
        destruct (Emplace new pos x (repr (xs ++ [l]) cap)) eqn:E;
          simpl; intros [= <-].
        -- by destruct (HN a self leaked).
        -- by rewrite (HR e self leaked).
  - (* no spare capacity *)
    assert (cap = length xs) as -> by lia.
    assert (Hcap : Capacity (repr xs (length xs)) = length xs) by done.
    assert (Hfull : Capacity (repr xs (length xs))
                    ≤ size_ (repr xs (length xs))) by (rewrite Hcap; done).
    destruct (new (Nat.max 1 (2 * length xs))) eqn:Hnew.
    2: { rewrite Emplace_refused by (rewrite ?Hcap; done). simpl.
         by intros [= <-]. }
    destruct (ctor_throws x) eqn:Hx.
    { rewrite Emplace_full_ctor_throw by (rewrite ?Hcap; done). simpl.
      by intros [= <-]. }
    destruct (decide (pos < Nat.max 1 (2 * length xs))) as [Hpos|Hpos].
    2: { by rewrite Emplace_full_outside by (rewrite ?Hcap; done || lia). }
    destruct xs as [|x0 xs0].
    { simpl in Hpos. assert (pos = 0) as -> by lia.
      rewrite Emplace_empty_grow by done. wf_done. }
    set (xs := x0 :: xs0) in *.
    assert (Hne : 0 < length xs) by (simpl; lia). clearbody xs.
    destruct (first_throw transfer_rule xs)
      as [Hok | (ys1 & y & ys2 & Hxs & Hok & Hy)].
    + destruct (decide (pos ≤ length xs)).
      * rewrite Emplace_grow_at by done. wf_done.
      * by rewrite Emplace_grow_outside by (done || lia).
    + rewrite Hxs in *. rewrite Emplace_grow_throw_at by done. wf_done.
Qed.

(** *** [operator[]], [Resize] and the constructors *)

Lemma subscript_assign_middle (l1 : list T) xi l2 x cap :
  subscript_assign (repr (l1 ++ xi :: l2) cap) (length l1) x
  = Normal tt (repr (l1 ++ x :: l2) cap) [].
Proof.
  unfold subscript_assign. fields.
  rewrite !length_app, !fmap_app, !fmap_cons, <- !app_assoc.
  cbn [length app]. nat_tests.
  by rewrite assign_at_middle by (by rewrite length_fmap).
Qed.

Lemma subscript_assign_wf index x v v' :
  well_formed v = true → state_after (subscript_assign v index x) = Some v' →
  well_formed v' = true.
Proof.
  intros (xs & cap & Hle & ->)%wf_cases.
  destruct (decide (index < length xs)) as [Hlt|Hge].
  - destruct (lookup_lt_is_Some_2 xs index Hlt) as [xi Hxi].
    pose proof (subscript_assign_middle (take index xs) xi
                  (drop (S index) xs) x cap) as E.
    rewrite take_drop_middle, length_take_le in E by (done || lia).
    rewrite E. wf_done.
  - unfold subscript_assign. fields. by nat_tests.
Qed.

Lemma Resize_unfold new n v :
  Resize new n v
  = match (if capacity_ (data_ v) <? n then Reserve new n v
           else Normal tt v []) with
    | Undefined => Undefined
    | Raised e v' lk => Raised e v' lk
    | Normal _ v' lk => Resize_tail n v' lk
    end.
Proof. reflexivity. Qed.

Lemma Resize_tail_shrink xs1 xs2 cap lk :
  length (xs1 ++ xs2) ≤ cap →
  Resize_tail (length xs1) (repr (xs1 ++ xs2) cap) lk
  = Normal tt (repr xs1 cap) lk.
Proof.
  rewrite length_app. intros Hle. unfold Resize_tail. fields.
  rewrite length_app, fmap_app, <- app_assoc. nat_tests.
  replace (length xs1 + length xs2 - length xs1) with (length xs2) by lia.
  rewrite destroy_n_live by (by rewrite length_fmap).
  rewrite <- replicate_add. same_state.
Qed.

Lemma Resize_tail_grow n xs cap lk :
  length xs < n → n ≤ cap → value_init_throws = false →
  Resize_tail n (repr xs cap) lk
  = Normal tt (repr (xs ++ replicate (n - length xs) value_init) cap) lk.
Proof.
  intros Hlt Hle Hv. unfold Resize_tail. fields. nat_tests.
  replace (cap - length xs) with ((n - length xs) + (cap - n)) by lia.
  rewrite replicate_add.
  rewrite uninitialized_value_construct_n_ok
    by (rewrite ?length_replicate, ?length_fmap; done).
  rewrite fmap_app, fmap_replicate, length_app, length_replicate,
    <- app_assoc.
  same_state.
Qed.

Lemma Resize_tail_throw n xs cap lk :
  length xs < n → value_init_throws = true →
  Resize_tail n (repr xs cap) lk = Raised element_exn (repr xs cap) lk.
Proof.
  intros Hlt Hv. unfold Resize_tail. fields. nat_tests.
  replace (n - length xs) with (S (n - S (length xs))) by lia.
  by rewrite uninitialized_value_construct_n_throw.
Qed.

Lemma Resize_tail_wf n xs cap lk v' :
  length xs ≤ cap → n ≤ cap →
  state_after (Resize_tail n (repr xs cap) lk) = Some v' →
  well_formed v' = true.
Proof.
  intros Hle Hn. destruct (decide (length xs < n)) as [Hlt|Hge].
  - destruct value_init_throws eqn:Hv.
    + rewrite Resize_tail_throw by done. wf_done.
    + rewrite Resize_tail_grow by done. simpl. intros [= <-].
      apply well_formed_repr. rewrite length_app, length_replicate. lia.
  - pose proof (Resize_tail_shrink (take n xs) (drop n xs) cap lk) as E.
    rewrite take_drop, length_take_le in E by lia.
    rewrite E by done. wf_done.
Qed.

Lemma Resize_wf new n v v' :
  well_formed v = true → state_after (Resize new n v) = Some v' →
  well_formed v' = true.
Proof.
  intros Hwf. pose proof Hwf as (xs & cap & Hle & ->)%wf_cases.
  rewrite Resize_unfold.
  change (capacity_ (data_ (repr xs cap))) with cap.
  destruct (Nat.ltb_spec cap n) as [Hlt|Hge].
  - destruct (new n) eqn:Hnew.
    2: { rewrite Reserve_refused by (done || (unfold Capacity; simpl; lia)).
         simpl. by intros [= <-]. }
    destruct (first_throw transfer_rule xs)
      as [Hok | (ys1 & y & ys2 & -> & Hok & Hy)].
    + rewrite Reserve_grow by (done || lia).
      apply Resize_tail_wf; lia.
    + rewrite Reserve_grow_throw by (done || lia). wf_done.
  - by apply Resize_tail_wf.
Qed.

Lemma RawMemory_sized_Some new n m :
  RawMemory_sized new n = Some m →
  m = {| buffer_ := replicate n (@None T); capacity_ := n |}.
Proof.
  unfold RawMemory_sized, Allocate.
  destruct n as [|n]; simpl; [by intros [= <-]|].
  destruct (new (S n)); [by intros [= <-] | done].
Qed.

Lemma uninitialized_value_construct_n_fresh n :
  value_init_throws = false →
  uninitialized_value_construct_n (replicate n None) 0 n
  = Done (replicate n (Some value_init)).
Proof.
  intros Hv.
  pose proof (uninitialized_value_construct_n_ok n [] (replicate n None) [] 0
                Hv (length_replicate _ _) eq_refl) as E.
  simpl in E. by rewrite !app_nil_r in E.
Qed.

Lemma Vector_sized_wf new size v lk :
  Vector_sized new size = Normal v tt lk → well_formed v = true.
Proof.
  unfold Vector_sized.
  destruct (RawMemory_sized new size) as [m|] eqn:Hm; [|done].
  apply RawMemory_sized_Some in Hm as ->. fields.
  destruct value_init_throws eqn:Hv.
  - destruct size as [|size].
    + simpl. intros [= <- <-]. by apply (well_formed_repr [] 0).
    + by rewrite uninitialized_value_construct_n_throw.
  - rewrite uninitialized_value_construct_n_fresh by done.
    simpl. intros [= <- <-].
    pose proof (well_formed_repr (replicate size value_init) size) as E.
    unfold repr in E.
    rewrite fmap_replicate, length_replicate, Nat.sub_diag in E.
    simpl in E. rewrite app_nil_r in E. apply E. lia.
Qed.

Lemma Vector_copy_cases new xs cap :
  Vector_copy new (repr xs cap) = Normal (repr xs (length xs)) tt []
  ∨ ∃ e lk, Vector_copy new (repr xs cap) = Raised e tt lk.
Proof.
  unfold Vector_copy. fields.
  destruct (RawMemory_sized new (length xs)) as [m|] eqn:Hm; [|eauto].
  apply RawMemory_sized_Some in Hm as ->. fields.
  rewrite <- (app_nil_r (replicate (length xs) None)).
  destruct (first_throw by_copy xs)
    as [Hok | (ys1 & y & ys2 & -> & Hok & Hy)].
  - rewrite transfer_all_ok by done. left.
    unfold repr. by rewrite Nat.sub_diag.
  - rewrite transfer_all_throw by (rewrite ?length_app; simpl; done || lia).
    eauto.
Qed.

(** *** Copy assignment *)

Lemma copy_assign_loop_head xs spost ys dpost n :
  length ys = length xs → n = length xs →
  copy_assign_loop ((Some <$> xs) ++ spost) ((Some <$> ys) ++ dpost) 0 n
  = Some ((Some <$> xs) ++ dpost).
Proof.
  intros Hlen ->. by apply (copy_assign_loop_live xs [] spost [] ys dpost 0).
Qed.

Lemma copy_assign_realloc new rs rcap xs cap :
  cap < length rs →
  copy_assign new (repr rs rcap) (repr xs cap)
  = Normal tt (repr rs (length rs)) []
  ∨ ∃ e lk, copy_assign new (repr rs rcap) (repr xs cap)
            = Raised e (repr xs cap) lk.
Proof.
  intros Hlt. unfold copy_assign.
  change (capacity_ (data_ (repr xs cap))) with cap.
  change (size_ (repr rs rcap)) with (length rs). nat_tests.
  destruct (Vector_copy_cases new rs rcap) as [-> | (e & lk & ->)]; [|eauto].
  left. unfold Swap, Vector_destroy. fields.
  by rewrite destroy_all, live_in_raw_app, live_in_raw.
Qed.

Lemma copy_assign_int_overflow new rs rcap xs cap :
  length rs ≤ cap →
  (INT_MAX < N.of_nat (length rs `min` length xs))%N →
  copy_assign new (repr rs rcap) (repr xs cap) = Undefined.
Proof.
  intros Hle Hint. unfold copy_assign. fields. nat_tests.
  by rewrite (proj2 (N.ltb_lt _ _) Hint).
Qed.

Lemma copy_assign_shrink new rs rcap xs1 xs2 cap :
  length xs1 = length rs → length (xs1 ++ xs2) ≤ cap →
  (N.of_nat (length rs) ≤ INT_MAX)%N →
  copy_assign new (repr rs rcap) (repr (xs1 ++ xs2) cap)
  = Normal tt (repr rs cap) [].
Proof.
  rewrite length_app. intros Hlen Hle Hint. unfold copy_assign. fields.
  rewrite length_app, fmap_app, <- app_assoc. nat_tests.
  replace (length rs `min` (length xs1 + length xs2)) with (length rs) by lia.
  rewrite (proj2 (N.ltb_ge _ _) Hint).
  rewrite copy_assign_loop_head by done.
  rewrite Nat.sub_diag. unfold uninitialized_n. cbn [uninitialized_loop app].
  replace (length xs1 + length xs2 - length rs) with (length xs2) by lia.
  rewrite destroy_n_live by (by rewrite length_fmap). fields.
  rewrite <- replicate_add. same_state.
Qed.

Lemma copy_assign_extend new rs1 rs2 rcap xs cap :
  length rs1 = length xs → 0 < length rs2 → length (rs1 ++ rs2) ≤ cap →
  (N.of_nat (length xs) ≤ INT_MAX)%N →
  never_throws by_copy rs2 →
  copy_assign new (repr (rs1 ++ rs2) rcap) (repr xs cap)
  = Normal tt (repr (rs1 ++ rs2) cap) [].
Proof.
  rewrite length_app. intros Hlen Hpos Hle Hint Hok. unfold copy_assign.
  fields.
  rewrite length_app, fmap_app, <- app_assoc. nat_tests.
  replace ((length rs1 + length rs2) `min` length xs)
    with (length rs1) by lia.
  rewrite (proj2 (N.ltb_ge INT_MAX (N.of_nat (length rs1))))
    by (by rewrite Hlen).
  rewrite copy_assign_loop_head by done.
  replace (length rs1 + length rs2 - length rs1) with (length rs2) by lia.
  replace (cap - length xs)
    with (length rs2 + (cap - (length rs1 + length rs2))) by lia.
  rewrite replicate_add. cbn [app].
  rewrite uninitialized_n_ok
    by (rewrite ?length_replicate, ?length_fmap; done).
  replace (length xs - length rs1) with 0 by lia. cbn [destroy_n]. fields.
  by rewrite <- app_assoc.
Qed.

Lemma copy_assign_extend_throw new rs1 ys1 y ys2 rcap xs cap :
  length rs1 = length xs → length (rs1 ++ ys1 ++ y :: ys2) ≤ cap →
  (N.of_nat (length xs) ≤ INT_MAX)%N →
  never_throws by_copy ys1 → transfer_throws by_copy y = true →
  copy_assign new (repr (rs1 ++ ys1 ++ y :: ys2) rcap) (repr xs cap)
  = Raised element_exn (repr rs1 cap) [].
Proof.
  rewrite !length_app. cbn [length]. intros Hlen Hle Hint Hok Hy.
  unfold copy_assign. fields.
  rewrite !length_app, !fmap_app, fmap_cons, <- !app_assoc. cbn [length].
  nat_tests.
  replace ((length rs1 + (length ys1 + S (length ys2))) `min` length xs)
    with (length rs1) by lia.
  rewrite (proj2 (N.ltb_ge INT_MAX (N.of_nat (length rs1))))
    by (by rewrite Hlen).
  rewrite copy_assign_loop_head by done.
  replace (length rs1 + (length ys1 + S (length ys2)) - length rs1)
    with (length ys1 + S (length ys2)) by lia.
  replace (cap - length xs)
    with (length ys1 + (cap - length xs - length ys1)) by lia.
  rewrite replicate_add. cbn [app].
  rewrite uninitialized_n_throw
    by (rewrite ?length_replicate, ?length_fmap; done).
  fields. rewrite <- replicate_add. same_state.
Qed.

Lemma copy_assign_wf new rhs this v' :
  well_formed rhs = true → well_formed this = true →
  state_after (copy_assign new rhs this) = Some v' → well_formed v' = true.
Proof.
  intros (rs & rcap & Hrle & ->)%wf_cases (xs & cap & Hle & ->)%wf_cases.
  destruct (decide (cap < length rs)) as [Hlt|Hge].
  { destruct (copy_assign_realloc new rs rcap xs cap Hlt)
      as [-> | (e & lk & ->)]; wf_done. }
  destruct (decide (INT_MAX < N.of_nat (length rs `min` length xs))%N)
    as [Hint|Hint].
  { by rewrite copy_assign_int_overflow by (done || lia). }
  destruct (decide (length rs ≤ length xs)) as [Hs|Hs].
  - pose proof (copy_assign_shrink new rs rcap (take (length rs) xs)
                  (drop (length rs) xs) cap) as E.
    rewrite take_drop, length_take_le in E by lia.
    rewrite E by (done || lia). wf_done.
  - assert (Hrs := take_drop (length xs) rs).
    assert (Hl1 : length (take (length xs) rs) = length xs)
      by (rewrite length_take_le; lia).
    assert (Hl2 : 0 < length (drop (length xs) rs))
      by (rewrite length_drop; lia).
    destruct (first_throw by_copy (drop (length xs) rs))
      as [Hok | (ys1 & y & ys2 & Hd & Hok & Hy)].
    + rewrite <- Hrs.
      rewrite copy_assign_extend; [| done | done | | lia | done].
      * rewrite Hrs. wf_done.
      * rewrite Hrs. lia.
    + rewrite <- Hrs, Hd.
      rewrite copy_assign_extend_throw; [| done | | lia | done | done].
      * simpl. intros [= <-]. apply well_formed_repr. lia.
      * rewrite <- Hd, Hrs. lia.
Qed.

(** *** Moves *)

Lemma Swap_repr (a b : Vector T) : Swap a b = (b, a).
Proof. by destruct a as [[??]?], b as [[??]?]. Qed.

(** *** Constructors, precisely *)

Lemma RawMemory_sized_ok new n :
  new n = true ∨ n = 0 →
  RawMemory_sized new n
  = Some {| buffer_ := replicate n (@None T); capacity_ := n |}.
Proof.
  intros [Hnew | ->]; [|done].
  destruct n as [|n]; [done|]. by apply RawMemory_sized_granted; [lia|].
Qed.

Lemma Vector_sized_ok new size :
  new size = true ∨ size = 0 → value_init_throws = false →
  Vector_sized new size
  = Normal (repr (replicate size value_init) size) tt [].
Proof.
  intros Hnew Hv. unfold Vector_sized.
  rewrite RawMemory_sized_ok by done. fields.
  rewrite uninitialized_value_construct_n_fresh by done.
  rewrite fmap_replicate, length_replicate, Nat.sub_diag. simpl.
  by rewrite app_nil_r.
Qed.

Lemma Vector_sized_throw new size :
  0 < size → new size = true → value_init_throws = true →
  Vector_sized new size = Raised element_exn tt [].
Proof.
  intros Hpos Hnew Hv. unfold Vector_sized.
  rewrite RawMemory_sized_granted by done. fields.
  destruct size as [|size]; [lia|].
  rewrite uninitialized_value_construct_n_throw by done.
  by rewrite live_in_raw.
Qed.

Lemma Vector_sized_refused new size :
  0 < size → new size = false →
  Vector_sized new size = Raised bad_alloc tt [].
Proof.
  intros Hpos Hnew. unfold Vector_sized.
  by rewrite RawMemory_sized_refused.
Qed.

Lemma Vector_copy_ok new xs cap :
  new (length xs) = true ∨ length xs = 0 → never_throws by_copy xs →
  Vector_copy new (repr xs cap) = Normal (repr xs (length xs)) tt [].
Proof.
  intros Hnew Hok. unfold Vector_copy. fields.
  rewrite RawMemory_sized_ok by done. fields.
  rewrite <- (app_nil_r (replicate (length xs) None)).
  rewrite transfer_all_ok by done.
  by rewrite Nat.sub_diag.
Qed.

Lemma Vector_copy_throw new ys1 y ys2 cap :
  new (length (ys1 ++ y :: ys2)) = true →
  never_throws by_copy ys1 → transfer_throws by_copy y = true →
  Vector_copy new (repr (ys1 ++ y :: ys2) cap) = Raised element_exn tt [].
Proof.
  intros Hnew Hok Hy. unfold Vector_copy. fields.
  rewrite RawMemory_sized_ok by (by left). fields.
  rewrite <- (app_nil_r (replicate (length (ys1 ++ y :: ys2)) None)).
  rewrite transfer_all_throw by (rewrite ?length_app; simpl; done || lia).
  by rewrite live_in_raw_app.
Qed.

Lemma Vector_copy_refused new xs cap :
  0 < length xs → new (length xs) = false →
  Vector_copy new (repr xs cap) = Raised bad_alloc tt [].
Proof.
  intros Hpos Hnew. unfold Vector_copy. fields.
  by rewrite RawMemory_sized_refused.
Qed.

Lemma Vector_destroy_repr xs cap : Vector_destroy (repr xs cap) = Some [].
Proof.
  unfold Vector_destroy. fields.
  by rewrite destroy_all, live_in_raw_app, live_in_raw.
Qed.

Lemma copy_assign_realloc_ok new rs rcap xs cap :
  cap < length rs → new (length rs) = true → never_throws by_copy rs →
  copy_assign new (repr rs rcap) (repr xs cap)
  = Normal tt (repr rs (length rs)) [].
Proof.
  intros Hlt Hnew Hok. unfold copy_assign.
  change (capacity_ (data_ (repr xs cap))) with cap.
  change (size_ (repr rs rcap)) with (length rs). nat_tests.
  rewrite Vector_copy_ok by (done || by left).
  unfold Swap. cbn [RawMemory_Swap]. 
  change {| data_ := {| buffer_ := buffer_ (data_ (repr xs cap));
                        capacity_ := capacity_ (data_ (repr xs cap)) |};
            size_ := size_ (repr xs cap) |} with (repr xs cap).
  by rewrite Vector_destroy_repr.
Qed.

Lemma copy_assign_realloc_raise new rs rcap xs cap :
  cap < length rs →
  new (length rs) = false ∨ ¬ never_throws by_copy rs →
  ∃ e, copy_assign new (repr rs rcap) (repr xs cap)
       = Raised e (repr xs cap) [].
Proof.
  intros Hlt Hcase. unfold copy_assign.
  change (capacity_ (data_ (repr xs cap))) with cap.
  change (size_ (repr rs rcap)) with (length rs). nat_tests.
  destruct (new (length rs)) eqn:Hnew.
  - destruct Hcase as [|Hno]; [done|].
    destruct (first_throw by_copy rs)
      as [Hok | (ys1 & y & ys2 & -> & Hok & Hy)]; [done|].
    rewrite Vector_copy_throw by done. eauto.
  - rewrite Vector_copy_refused by (done || lia). eauto.
Qed.

(** *** Every call is orderly *)

Lemma Emplace_spare_beyond new pos x xs l cap :
  length (xs ++ [l]) < cap → length (xs ++ [l]) ≤ pos →
  ctor_throws x = false → transfer_throws transfer_rule l = false →
  Emplace new pos x (repr (xs ++ [l]) cap) = Undefined.
Proof.
  rewrite length_app. cbn [length]. intros Hlt Hpos Hx Hl.
  unfold Emplace. fields.
  rewrite length_app, fmap_app, <- app_assoc. cbn [length]. nat_tests.
  rewrite Hx, fmap_cons. cbn [fmap list_fmap app].
  rewrite live_at_middle by (rewrite length_fmap; lia).
  rewrite construct_from_eq, Hl.
  destruct (construct_at _ _ l) as [buf|]; [|done].
  by rewrite assign_backward_inverted by lia.
Qed.

Ltac lens :=
  rewrite ?partly_length;
  repeat first [ rewrite length_app in * | rewrite length_take in *
               | rewrite length_drop in * | rewrite length_replicate in *
               | rewrite length_insert in * | progress cbn [length] in * ];
  lia.

Ltac ord_done :=
  unfold orderly;
  split; [apply well_formed_repr; lens |];
  split; [first [reflexivity | cbn [repr size_]; lens]
         | cbn [repr data_ capacity_]; lens].

Lemma EmplaceBack_orderly new x v :
  well_formed v = true → orderly v (EmplaceBack new x v).
Proof.
  intros (xs & cap & Hle & ->)%wf_cases.
  destruct (decide (length xs < cap)) as [Hlt|Hge].
  - destruct (ctor_throws x) eqn:Hx.
    + rewrite EmplaceBack_spare_throw by done. ord_done.
    + rewrite EmplaceBack_spare by done. ord_done.
  - assert (cap = length xs) as -> by lia.
    destruct (new (Nat.max 1 (2 * length xs))) eqn:Hnew;
      [| rewrite EmplaceBack_refused by done; ord_done].
    destruct (ctor_throws x) eqn:Hx;
      [rewrite EmplaceBack_full_throw by done; ord_done |].
    destruct (first_throw transfer_rule xs)
      as [Hok | (ys1 & y & ys2 & -> & Hok & Hy)].
    + rewrite EmplaceBack_grow by done. ord_done.
    + rewrite EmplaceBack_grow_throw by done. ord_done.
Qed.

Lemma PushBack_orderly new x v :
  well_formed v = true → orderly v (PushBack new x v).
Proof.
  intros Hwf. rewrite PushBack_EmplaceBack.
  pose proof (EmplaceBack_orderly new x v Hwf) as E.
  by destruct (EmplaceBack new x v).
Qed.

Lemma Reserve_orderly new n v :
  well_formed v = true → orderly v (Reserve new n v).
Proof.
  intros Hwf. pose proof Hwf as (xs & cap & Hle & ->)%wf_cases.
  destruct (decide (n ≤ cap)) as [Hn|Hn].
  { rewrite Reserve_enough by done. ord_done. }
  destruct (new n) eqn:Hnew.
  2: { rewrite Reserve_refused by (done || (unfold Capacity; simpl; lia)).
       ord_done. }
  destruct (first_throw transfer_rule xs)
    as [Hok | (ys1 & y & ys2 & -> & Hok & Hy)].
  - rewrite Reserve_grow by (done || lia). ord_done.
  - rewrite Reserve_grow_throw by (done || lia). ord_done.
Qed.

Lemma PopBack_orderly v : well_formed v = true → orderly v (PopBack v).
Proof.
  intros Hwf. pose proof Hwf as (xs & cap & Hle & ->)%wf_cases.
  destruct xs as [|x xs _] using rev_ind.
  - rewrite PopBack_empty by done. ord_done.
  - rewrite PopBack_snoc by done. ord_done.
Qed.

Lemma Erase_orderly pos v : well_formed v = true → orderly v (Erase pos v).
Proof.
  intros (xs & cap & Hle & ->)%wf_cases.
  destruct (decide (pos < length xs)) as [Hlt|Hge].
  - rewrite Erase_at by done. ord_done.
  - by rewrite Erase_outside by lia.
Qed.

Lemma Emplace_orderly new pos x v :
  well_formed v = true → orderly v (Emplace new pos x v).
Proof.
  intros Hwf. pose proof Hwf as (xs & cap & Hle & ->)%wf_cases.
  destruct (decide (length xs < cap)) as [Hlt|Hge].
  - destruct (ctor_throws x) eqn:Hx;
      [rewrite Emplace_spare_ctor_throw by done; ord_done |].
    destruct xs as [|l xs _] using rev_ind.
    + simpl in Hlt. destruct (decide (pos < cap)).
      * rewrite Emplace_empty_spare by done. ord_done.
      * by rewrite Emplace_empty_spare_outside by (done || lia).
    + destruct (transfer_throws transfer_rule l) eqn:Hl;
        [rewrite Emplace_spare_last_throw by done; ord_done |].
      destruct (decide (pos < length (xs ++ [l]))) as [Hpos|Hpos].
      * rewrite Emplace_spare_at; [ord_done | done | done | done |].
        intros l'. rewrite last_snoc. by intros [= <-].
      * by rewrite Emplace_spare_beyond by (done || lia).
  - assert (cap = length xs) as -> by lia.
    assert (Hcap : Capacity (repr xs (length xs)) = length xs) by done.
    assert (Hfull : Capacity (repr xs (length xs))
                    ≤ size_ (repr xs (length xs))) by (rewrite Hcap; done).
    destruct (new (Nat.max 1 (2 * length xs))) eqn:Hnew.
    2: { rewrite Emplace_refused by (rewrite ?Hcap; done). ord_done. }
    destruct (ctor_throws x) eqn:Hx.
    { rewrite Emplace_full_ctor_throw by (rewrite ?Hcap; done). ord_done. }
    destruct (decide (pos < Nat.max 1 (2 * length xs))) as [Hpos|Hpos].
    2: { by rewrite Emplace_full_outside by (rewrite ?Hcap; done || lia). }
    destruct (decide (length xs = 0)) as [Hz|Hnz].
    { apply length_zero_iff_nil in Hz as ->. simpl in Hpos.
      assert (pos = 0) as -> by lia.
      rewrite Emplace_empty_grow by done. ord_done. }
    destruct (first_throw transfer_rule xs)
      as [Hok | (ys1 & y & ys2 & Hxs & Hok & Hy)].
    + destruct (decide (pos ≤ length xs)).
      * rewrite Emplace_grow_at by (done || lia). ord_done.
      * by rewrite Emplace_grow_outside by (done || lia).
    + rewrite Hxs in *. rewrite Emplace_grow_throw_at by done. ord_done.
Qed.

Lemma subscript_assign_orderly index x v :
  well_formed v = true → orderly v (subscript_assign v index x).
Proof.
  intros (xs & cap & Hle & ->)%wf_cases.
  destruct (decide (index < length xs)) as [Hlt|Hge].
  - destruct (lookup_lt_is_Some_2 xs index Hlt) as [xi Hxi].
    pose proof (subscript_assign_middle (take index xs) xi
                  (drop (S index) xs) x cap) as E.
    rewrite take_drop_middle, length_take_le in E by (done || lia).
    rewrite E. ord_done.
  - unfold subscript_assign. fields. by nat_tests.
Qed.

Lemma Resize_tail_orderly n xs cap c0 :
  length xs ≤ cap → n ≤ cap → c0 ≤ cap →
  match Resize_tail n (repr xs cap) [] with
  | Normal _ v' lk =>
      well_formed v' = true ∧ lk = [] ∧ c0 ≤ capacity_ (data_ v')
  | Raised _ v' lk =>
      well_formed v' = true ∧ size_ v' = length xs
      ∧ c0 ≤ capacity_ (data_ v')
  | Undefined => True
  end.
Proof.
  intros Hle Hn Hc. destruct (decide (length xs < n)) as [Hlt|Hge].
  - destruct value_init_throws eqn:Hv.
    + rewrite Resize_tail_throw by done.
      split; [by apply well_formed_repr | done].
    + rewrite Resize_tail_grow by done.
      split; [apply well_formed_repr; lens | done].
  - pose proof (Resize_tail_shrink (take n xs) (drop n xs) cap []) as E.
    rewrite take_drop, length_take_le in E by lia.
    rewrite E by done. split; [apply well_formed_repr; lens | done].
Qed.

Lemma Resize_orderly new n v :
  well_formed v = true → orderly v (Resize new n v).
Proof.
  intros Hwf. pose proof Hwf as (xs & cap & Hle & ->)%wf_cases.
  rewrite Resize_unfold.
  change (capacity_ (data_ (repr xs cap))) with cap.
  destruct (Nat.ltb_spec cap n) as [Hlt|Hge].
  - destruct (new n) eqn:Hnew.
    2: { rewrite Reserve_refused by (done || (unfold Capacity; simpl; lia)).
         ord_done. }
    destruct (first_throw transfer_rule xs)
      as [Hok | (ys1 & y & ys2 & -> & Hok & Hy)].
    + rewrite Reserve_grow by (done || lia).
      apply (Resize_tail_orderly n xs n cap); lia.
    + rewrite Reserve_grow_throw by (done || lia). ord_done.
  - by apply (Resize_tail_orderly n xs cap cap).
Qed.

Lemma copy_assign_orderly new rhs this :
  well_formed rhs = true → well_formed this = true →
  orderly this (copy_assign new rhs this).
Proof.
  intros (rs & rcap & Hrle & ->)%wf_cases (xs & cap & Hle & ->)%wf_cases.
  destruct (decide (cap < length rs)) as [Hlt|Hge].
  { destruct (new (length rs)) eqn:Hnew.
    - destruct (first_throw by_copy rs)
        as [Hok | (ys1 & y & ys2 & Hrs & Hok & Hy)].
      + rewrite copy_assign_realloc_ok by done. ord_done.
      + destruct (copy_assign_realloc_raise new rs rcap xs cap Hlt)
          as [e ->]; [|ord_done].
        right. intros Hall. rewrite Hrs in Hall.
        apply Forall_app in Hall as [_ Hall].
        apply Forall_cons in Hall as [Hy' _]. congruence.
    - destruct (copy_assign_realloc_raise new rs rcap xs cap Hlt)
        as [e ->]; [by left | ord_done]. }
  destruct (decide (INT_MAX < N.of_nat (length rs `min` length xs))%N)
    as [Hint|Hint].
  { by rewrite copy_assign_int_overflow by (done || lia). }
  destruct (decide (length rs ≤ length xs)) as [Hs|Hs].
  - pose proof (copy_assign_shrink new rs rcap (take (length rs) xs)
                  (drop (length rs) xs) cap) as E.
    rewrite take_drop, length_take_le in E by lia.
    rewrite E by (done || lia). ord_done.
  - assert (Hrs := take_drop (length xs) rs).
    assert (Hl1 : length (take (length xs) rs) = length xs)
      by (rewrite length_take_le; lia).
    assert (Hl2 : 0 < length (drop (length xs) rs))
      by (rewrite length_drop; lia).
    destruct (first_throw by_copy (drop (length xs) rs))
      as [Hok | (ys1 & y & ys2 & Hd & Hok & Hy)].
    + rewrite <- Hrs.
      rewrite copy_assign_extend; [| done | done | | lia | done].
      * rewrite Hrs. ord_done.
      * rewrite Hrs. lia.
    + rewrite <- Hrs, Hd.
      rewrite copy_assign_extend_throw; [| done | | lia | done | done].
      * unfold orderly. split; [apply well_formed_repr; lia | done].
      * rewrite <- Hd, Hrs. lia.
Qed.

(** *** Sizes chosen by the caller *)

Context `{Sized T}.

Lemma request_fits_0 : request_fits 0 = true.
Proof.
  unfold request_fits. apply N.ltb_lt.
  change (N.of_nat 0) with 0%N. by rewrite N.mul_0_l.
Qed.

Lemma block_slots_fits n : request_fits n = true → block_slots n = n.
Proof.
  unfold request_fits, block_slots, requested_bytes. intros Hf%N.ltb_lt.
  pose proof sizeof_T_pos as Hpos.
  rewrite N.mod_small by done.
  rewrite N.div_mul by lia. apply Nat2N.id.
Qed.

Lemma block_slots_le n : block_slots n ≤ n.
Proof.
  unfold block_slots, requested_bytes.
  pose proof sizeof_T_pos as Hpos.
  assert (((N.of_nat n * sizeof_T) mod size_t_modulus / sizeof_T
           ≤ N.of_nat n)%N) as Hle; [|lia].
  etrans; [apply N.Div0.div_le_mono, N.Div0.mod_le|].
  rewrite N.div_mul by lia. done.
Qed.

Lemma block_slots_wraps n : request_fits n = false → block_slots n < n.
Proof.
  unfold request_fits, block_slots, requested_bytes. intros Hf%N.ltb_ge.
  pose proof sizeof_T_pos as Hpos.
  assert (((N.of_nat n * sizeof_T) mod size_t_modulus / sizeof_T
           < N.of_nat n)%N) as Hlt; [|lia].
  apply N.Div0.div_lt_upper_bound.
  rewrite (N.mul_comm sizeof_T).
  eapply N.lt_le_trans; [by apply N.mod_lt | done].
Qed.

Lemma RawMemory_sized_size_t_fits new n :
  request_fits n = true → RawMemory_sized_size_t new n = RawMemory_sized new n.
Proof.
  intros Hf. unfold RawMemory_sized_size_t, RawMemory_sized,
    Allocate_size_t, Allocate.
  by rewrite block_slots_fits.
Qed.

Lemma Reserve_size_t_fits new n v :
  request_fits n = true ∨ n ≤ Capacity v →
  Reserve_size_t new n v = Reserve new n v.
Proof.
  unfold Reserve_size_t, Reserve, Capacity. intros [Hf | Hle].
  - by rewrite RawMemory_sized_size_t_fits.
  - by nat_tests.
Qed.

Lemma Resize_size_t_fits new n v :
  request_fits n = true ∨ n ≤ Capacity v →
  Resize_size_t new n v = Resize new n v.
Proof.
  intros Hf. unfold Resize_size_t, Resize.
  by rewrite Reserve_size_t_fits.
Qed.

Lemma Vector_sized_size_t_fits new n :
  request_fits n = true → Vector_sized_size_t new n = Vector_sized new n.
Proof.
  intros Hf. unfold Vector_sized_size_t, Vector_sized.
  by rewrite RawMemory_sized_size_t_fits.
Qed.

Lemma RawMemory_sized_size_t_granted new n :
  0 < n → new n = true →
  RawMemory_sized_size_t new n
  = Some {| buffer_ := replicate (block_slots n) (@None T); capacity_ := n |}.
Proof.
  intros Hpos Hnew. unfold RawMemory_sized_size_t, Allocate_size_t.
  nat_tests. by rewrite Hnew.
Qed.



Lemma value_construct_loop_overflow : ∀ n buf cur,
  value_init_throws = false → cur ≤ length buf → length buf < cur + n →
  value_construct_loop buf cur n = Undef.
Proof.
  induction n as [|n IH]; intros buf cur Hv Hle Hlt; [lia|].
  simpl. rewrite Hv. unfold construct_at.
  destruct (Nat.ltb_spec cur (length buf)) as [Hin|Hout]; [|done].
  apply IH; [done | rewrite length_insert; lia ..].
Qed.


(** [Vector(n)] when [n * sizeof(T)] wraps. *)
Lemma Vector_sized_size_t_overflows new n :
  new n = true → block_slots n < n → value_init_throws = false →
  @Vector_sized_size_t T _ _ new n = Undefined.
Proof.
  intros Hnew Hslots Hv. unfold Vector_sized_size_t.
  rewrite RawMemory_sized_size_t_granted by (done || lia). fields.
  unfold uninitialized_value_construct_n.
  by rewrite value_construct_loop_overflow
    by (rewrite ?length_replicate; done || lia).
Qed.


End Vectors.

(** * The specification, claim by claim *)

Section Claims.
Context {T : Type} `{Element T} `{Sized T}.
Implicit Types (xs ys es : list T) (v : Vector T) (new : nat → bool).

Ltac sizes :=
  unfold Capacity, Size, end_; cbn [repr data_ size_ capacity_ buffer_].

Lemma EmplaceBack_refused_any new x v :
  Capacity v ≤ size_ v → new (Nat.max 1 (2 * Capacity v)) = false →
  EmplaceBack new x v = Raised bad_alloc v [].
Proof.
  unfold Capacity. intros Hle Hnew. unfold EmplaceBack.
  rewrite growth_eq.
  destruct (Nat.ltb_spec (size_ v) (capacity_ (data_ v))); [lia|].
  by rewrite RawMemory_sized_refused by (done || lia).
Qed.

Lemma refused_growth new pos x v :
  Capacity v ≤ Size v → new (Nat.max 1 (2 * Capacity v)) = false →
  PushBack new x v = Raised bad_alloc v []
  ∧ EmplaceBack new x v = Raised bad_alloc v []
  ∧ Insert new pos x v = Raised bad_alloc v []
  ∧ Emplace new pos x v = Raised bad_alloc v [].
Proof.
  intros Hle Hnew.
  assert (E := EmplaceBack_refused_any new x v Hle Hnew).
  repeat split.
  - by rewrite PushBack_EmplaceBack, E.
  - done.
  - by apply Emplace_refused.
  - by apply Emplace_refused.
Qed.

Lemma subscript_repr xs cap i : subscript (repr xs cap) i = xs !! i.
Proof.
  unfold subscript, live_at. simpl.
  destruct (Nat.ltb_spec i (length xs)) as [Hlt|Hge].
  - rewrite lookup_app_l by (by rewrite length_fmap).
    rewrite list_lookup_fmap. by destruct (xs !! i).
  - by rewrite lookup_ge_None_2.
Qed.

(** C1 (as amended).  Moving [A] into [B] hands [A]'s storage, size and
    elements over to [B].  After move construction [A] is empty, with size 0
    and capacity 0.  Move assignment swaps the two vectors: [A] is left with
    the size, capacity and elements [B] had before, so it ends with size 0
    and capacity 0 only when [B] had them. *)
Theorem move_hands_over_storage (A B : Vector T) :
  ((Vector_move A).1 = A
   ∧ Size (Vector_move A).1 = Size A
   ∧ Capacity (Vector_move A).1 = Capacity A
   ∧ contents (Vector_move A).1 = contents A
   ∧ Size (Vector_move A).2 = 0 ∧ Capacity (Vector_move A).2 = 0)
  ∧ ((move_assign B A).1 = A
     ∧ Size (move_assign B A).1 = Size A
     ∧ Capacity (move_assign B A).1 = Capacity A
     ∧ contents (move_assign B A).1 = contents A
     ∧ (move_assign B A).2 = B
     ∧ Size (move_assign B A).2 = Size B
     ∧ Capacity (move_assign B A).2 = Capacity B).
Proof.
  unfold Vector_move, move_assign. rewrite !Swap_repr. simpl.
  repeat split.
Qed.

(** C10.  When [operator new] refuses the block an operation asks for, the
    operation raises [bad_alloc] and the vector is exactly as before: this
    holds for [Reserve] (and [Resize] through it) and for [PushBack],
    [EmplaceBack], [Insert] and [Emplace] on a vector without spare
    capacity.  Nothing is leaked either. *)
Theorem refused_allocation_changes_nothing new n pos x v :
  (Capacity v < n → new n = false →
     Reserve new n v = Raised bad_alloc v []
     ∧ Resize new n v = Raised bad_alloc v [])
  ∧ (Capacity v ≤ Size v → new (Nat.max 1 (2 * Capacity v)) = false →
     PushBack new x v = Raised bad_alloc v []
     ∧ EmplaceBack new x v = Raised bad_alloc v []
     ∧ Insert new pos x v = Raised bad_alloc v []
     ∧ Emplace new pos x v = Raised bad_alloc v []).
Proof.
  split.
  - intros Hlt Hnew. split; [by apply Reserve_refused|].
    rewrite Resize_unfold.
    destruct (Nat.ltb_spec (capacity_ (data_ v)) n) as [_|Hge];
      [| unfold Capacity in Hlt; lia].
    by rewrite Reserve_refused.
  - apply refused_growth.
Qed.


(** C7.  [PopBack()] on an empty vector changes nothing.  On a vector with
    elements it destroys the last one (its slot is raw memory afterwards and
    nothing is leaked), takes one off the size and leaves the elements at
    the indices below untouched. *)
Theorem PopBack_spec v :
  well_formed v = true →
  (Size v = 0 → PopBack v = Normal tt v [])
  ∧ (0 < Size v →
     ∃ v', PopBack v = Normal tt v' []
           ∧ Size v' = Size v - 1 ∧ Capacity v' = Capacity v
           ∧ contents v' = take (Size v - 1) (contents v)
           ∧ (∀ i, i < Size v - 1 → subscript v' i = subscript v i)
           ∧ live_at (buffer_ (data_ v')) (Size v - 1) = None
           ∧ well_formed v' = true).
Proof.
  intros Hwf. split; [by apply PopBack_empty|].
  pose proof Hwf as (xs & cap & Hle & ->)%wf_cases.
  rewrite contents_repr. unfold Capacity, Size. simpl. intros Hpos.
  destruct xs as [|x xs _] using rev_ind; [simpl in Hpos; lia|].
  exists (repr xs cap). rewrite PopBack_snoc by done.
  rewrite length_app in *. simpl in Hle |- *.
  replace (length xs + 1 - 1) with (length xs) by lia.
  rewrite contents_repr, take_app_length.
  repeat split; try done.
  - intros i Hi. rewrite !subscript_repr. by rewrite lookup_app_l.
  - unfold live_at. rewrite lookup_app_r by (by rewrite length_fmap).
    rewrite length_fmap, Nat.sub_diag, lookup_replicate_2 by lia. done.
  - apply well_formed_repr. lia.
Qed.

(** C8.  [Erase(pos)] at a position holding an element takes one off the
    size, leaves the elements before [pos] as they were and moves those
    after [pos] one slot to the left in their order.  The iterator returned
    is [pos] again: the slot of the element that followed the removed one, or
    [end()] when the last element was removed. *)
Theorem Erase_spec pos v :
  well_formed v = true → pos < Size v →
  ∃ v', Erase pos v = Normal pos v' []
        ∧ Size v' = Size v - 1 ∧ Capacity v' = Capacity v
        ∧ contents v' = take pos (contents v) ++ drop (S pos) (contents v)
        ∧ (∀ i, i < pos → subscript v' i = subscript v i)
        ∧ (∀ i, pos ≤ i → subscript v' i = subscript v (S i))
        ∧ (S pos = Size v → pos = end_ v')
        ∧ well_formed v' = true.
Proof.
  intros (xs & cap & Hle & ->)%wf_cases.
  rewrite contents_repr. unfold Capacity, Size, end_. simpl. intros Hpos.
  exists (repr (take pos xs ++ drop (S pos) xs) cap).
  rewrite Erase_at by done. rewrite contents_repr. simpl.
  assert (Hlen : length (take pos xs ++ drop (S pos) xs) = length xs - 1)
    by (rewrite length_app, length_take, length_drop; lia).
  repeat split; try done.
  - intros i Hi. rewrite !subscript_repr.
    rewrite lookup_app_l by (rewrite length_take; lia).
    by rewrite lookup_take_lt.
  - intros i Hi. rewrite !subscript_repr.
    rewrite lookup_app_r by (rewrite length_take; lia).
    rewrite length_take_le, lookup_drop by lia. f_equal. lia.
  - lia.
  - apply well_formed_repr. lia.
Qed.

(** *** Appending *)

Lemma EmplaceBack_ok new x xs cap :
  length xs ≤ cap → new (Nat.max 1 (2 * cap)) = true →
  ctor_throws x = false → never_throws transfer_rule xs →
  EmplaceBack new x (repr xs cap)
  = Normal (length xs)
           (repr (xs ++ [x])
                 (if length xs <? cap then cap else Nat.max 1 (2 * cap))) [].
Proof.
  intros Hle Hnew Hx Hok.
  destruct (Nat.ltb_spec (length xs) cap) as [Hlt|Hge].
  - by apply EmplaceBack_spare.
  - assert (cap = length xs) as -> by lia. by apply EmplaceBack_grow.
Qed.

Lemma PushBack_ok new x xs cap :
  length xs ≤ cap → new (Nat.max 1 (2 * cap)) = true →
  ctor_throws x = false → never_throws transfer_rule xs →
  PushBack new x (repr xs cap)
  = Normal tt
           (repr (xs ++ [x])
                 (if length xs <? cap then cap else Nat.max 1 (2 * cap))) [].
Proof.
  intros. by rewrite PushBack_EmplaceBack, EmplaceBack_ok.
Qed.

Lemma PushBack_all_repr new es : ∀ xs cap,
  (∀ n, new n = true) → length xs ≤ cap →
  Forall (λ e, ctor_throws e = false) es →
  never_throws transfer_rule (xs ++ es) →
  ∃ caps cap',
    PushBack_all new es (repr xs cap) = Normal caps (repr (xs ++ es) cap') []
    ∧ length (xs ++ es) ≤ cap' ∧ length caps = length es.
Proof.
  induction es as [|e es IH]; intros xs cap Hnew Hle Hctor Hok.
  - exists [], cap. rewrite app_nil_r. by simpl.
  - apply Forall_cons in Hctor as [He Hes].
    pose proof Hok as [Hxs _]%Forall_app.
    cbn [PushBack_all]. rewrite PushBack_ok by done.
    set (c1 := if length xs <? cap then cap else Nat.max 1 (2 * cap)).
    assert (Hc1 : length (xs ++ [e]) ≤ c1).
    { rewrite length_app. simpl. unfold c1.
      destruct (Nat.ltb_spec (length xs) cap); lia. }
    destruct (IH (xs ++ [e]) c1 Hnew Hc1 Hes) as (caps & cap' & E & Hl & Hc).
    { by rewrite <- app_assoc. }
    rewrite E. exists (c1 :: caps), cap'.
    rewrite <- app_assoc in Hl |- *. simpl in *. by rewrite Hc.
Qed.

(** C4.  Pushing [e1 .. en] into an empty vector, with every block granted
    and no constructor throwing, returns normally each time and leaves a
    vector of size [n] whose index [i] reads [e(i+1)].  For [1, 2, 3] the
    vector holds [1, 2, 3] with size 3 and the capacity goes from 0 to 1, 2
    and 4. *)
Theorem PushBack_round_trip new es :
  (∀ n, new n = true) →
  Forall (λ e, ctor_throws e = false) es →
  never_throws transfer_rule es →
  (∃ caps v,
      PushBack_all new es Vector_default = Normal caps v []
      ∧ Size v = length es
      ∧ (∀ i, i < length es → subscript v i = es !! i)
      ∧ contents v = es ∧ well_formed v = true)
  ∧ (Capacity (@Vector_default Z) = 0
     ∧ PushBack_all always_granted [1; 2; 3]%Z Vector_default
       = Normal [1; 2; 4] (repr [1; 2; 3]%Z 4) []
     ∧ Size (repr [1; 2; 3]%Z 4) = 3
     ∧ contents (repr [1; 2; 3]%Z 4) = [1; 2; 3]%Z).
Proof.
  intros Hnew Hctor Hok. split; [| by repeat split].
  destruct (PushBack_all_repr new es [] 0 Hnew) as (caps & cap & E & Hl & _);
    [simpl; lia | done | done |].
  exists caps, (repr es cap). simpl in E, Hl.
  repeat split; try done.
  - intros i _. apply subscript_repr.
  - apply contents_repr.
  - by apply well_formed_repr.
Qed.

(** *** Inserting *)

Lemma Emplace_inserts new pos x v :
  well_formed v = true → pos ≤ Size v →
  Size v = Capacity v ∨ Size v = 0 ∨ pos < Size v →
  new (Nat.max 1 (2 * Capacity v)) = true → ctor_throws x = false →
  never_throws transfer_rule (contents v) →
  ∃ v', Emplace new pos x v = Normal pos v' []
        ∧ Size v' = S (Size v)
        ∧ contents v' = take pos (contents v) ++ x :: drop pos (contents v)
        ∧ Capacity v'
          = (if Size v <? Capacity v then Capacity v
             else Nat.max 1 (2 * Capacity v))
        ∧ well_formed v' = true.
Proof.
  intros (xs & cap & Hle & ->)%wf_cases.
  rewrite contents_repr. sizes.
  intros Hpos Hcase Hnew Hx Hok.
  assert (Hlen : length (take pos xs ++ x :: drop pos xs) = S (length xs))
    by (rewrite length_app, length_take; simpl; rewrite length_drop; lia).
  destruct (Nat.ltb_spec (length xs) cap) as [Hlt|Hge].
  - (* spare capacity *)
    exists (repr (take pos xs ++ x :: drop pos xs) cap).
    rewrite contents_repr. sizes.
    destruct (decide (length xs = 0)) as [Hz|Hnz].
    + apply length_zero_iff_nil in Hz as ->. simpl in Hpos.
      assert (pos = 0) as -> by lia.
      rewrite Emplace_empty_spare by done.
      repeat split; try done. by apply well_formed_repr.
    + rewrite Emplace_spare_at; [| lia | done | done |].
      * repeat split; try done. apply well_formed_repr. lia.
      * intros l Hl. apply last_Some in Hl as [l' ->].
        apply Forall_app in Hok as [_ Hok].
        by apply Forall_cons in Hok as [Hok _].
  - (* no spare capacity *)
    assert (cap = length xs) as -> by lia.
    exists (repr (take pos xs ++ x :: drop pos xs)
                 (Nat.max 1 (2 * length xs))).
    rewrite contents_repr. sizes.
    destruct (decide (length xs = 0)) as [Hz|Hnz].
    + apply length_zero_iff_nil in Hz as ->. simpl in Hpos.
      assert (pos = 0) as -> by lia.
      rewrite Emplace_empty_grow by done.
      repeat split; try done.
    + rewrite Emplace_grow_at by (done || lia).
      repeat split; try done. apply well_formed_repr. lia.
Qed.

(** C2 (the failing input).  A vector of strings holding ["a"] in a block of
    two slots is reached by [Reserve(2)] and [PushBack("a")] on an empty
    vector.  [Insert(end(), "b")] on it has no defined result: the in-place
    branch first move-constructs slot 1 from slot 0, which leaves slot 0
    moved-from, and then calls [std::move_backward] on
    [begin() + 1, end() - 1), which is not a range. *)
Theorem Insert_at_end_with_spare_capacity :
  let v := repr ["a"%string] 2 in
  Reserve always_granted 2 Vector_default = Normal tt (repr [] 2) []
  ∧ PushBack always_granted "a"%string (repr [] 2) = Normal tt v []
  ∧ well_formed v = true ∧ Size v < Capacity v
  ∧ Insert always_granted (end_ v) "b"%string v = Undefined
  ∧ construct_from (@transfer_rule string _) "a"%string
    = Some ("a"%string, EmptyString)
  ∧ construct_at (<[0 := Some EmptyString]> (buffer_ (data_ v))) 1 "a"%string
    = Some [Some EmptyString; Some "a"%string]
  ∧ assign_backward (@transfer_rule string _)
      [Some EmptyString; Some "a"%string] 1 0 1 = None.
Proof.
  cbn zeta. split; [reflexivity|]. split; [reflexivity|].
  split; [reflexivity|].
  split; [unfold Size, Capacity; simpl; lia|].
  repeat (split; [reflexivity|]). reflexivity.
Qed.

(** Were the shift over that inverted range to assign nothing, the final
    assignment to slot 1 would leave the vector reading the moved-from
    string and ["b"]: the element ["a"] is gone. *)
Lemma Insert_at_end_if_the_shift_assigns_nothing :
  assign_backward_loop (@transfer_rule string _)
    [Some EmptyString; Some "a"%string] 0 0 1
  = Some [Some EmptyString; Some "a"%string]
  ∧ assign_at [Some EmptyString; Some "a"%string] 1 "b"%string
    = Some [Some EmptyString; Some "b"%string].
Proof. split; reflexivity. Qed.

(** *** Failing transfers *)

(** C3 (as amended).  When the constructor used by a storage transfer throws
    ([y] is the first element whose transfer throws), the exception leaves
    the vector on its old storage: size and capacity are unchanged, the
    slots below the size still hold live elements, and under copy transfer
    the vector is exactly as before (under move transfer the elements before
    [y] are left moved-from).  This holds for [Reserve(n)] with
    [n * sizeof(T)] within the range of [size_t], and for the growth
    paths of [PushBack], [EmplaceBack], [Insert] and [Emplace].  In those
    growth paths the new element, already constructed in the new block, is
    not destroyed: the block is released with it (and, for [Emplace], with
    the prefix already transferred) still alive. *)
Theorem failed_transfer_keeps_old_storage new n pos x v ys1 y ys2 :
  well_formed v = true →
  contents v = ys1 ++ y :: ys2 →
  never_throws transfer_rule ys1 → transfer_throws transfer_rule y = true →
  ctor_throws x = false →
  let v' := repr (partly transfer_rule ys1 y ys2) (Capacity v) in
  (well_formed v' = true ∧ Size v' = Size v ∧ Capacity v' = Capacity v
   ∧ (transfer_rule = by_copy → v' = v))
  ∧ (Capacity v < n → request_fits n = true → new n = true →
     Reserve_size_t new n v = Raised element_exn v' [])
  ∧ (Size v = Capacity v → new (Nat.max 1 (2 * Capacity v)) = true →
     PushBack new x v = Raised element_exn v' [x]
     ∧ EmplaceBack new x v = Raised element_exn v' [x]
     ∧ (pos ≤ Size v →
        Emplace new pos x v
        = Raised element_exn v'
            ((if pos <=? length ys1 then take pos (contents v) else [])
             ++ [x])
        ∧ Insert new pos x v = Emplace new pos x v)).
Proof.
  intros (xs & cap & Hle & ->)%wf_cases. rewrite contents_repr.
  intros -> Hok Hy Hx. sizes. cbn zeta.
  assert (Hlen : length (ys1 ++ y :: ys2) = length ys1 + S (length ys2))
    by (rewrite length_app; simpl; lia).
  split; [|split].
  - rewrite partly_length. repeat split.
    + apply well_formed_repr. by rewrite partly_length.
    + intros ->. by rewrite partly_copy.
  - intros Hlt Hfit Hnew. rewrite Reserve_size_t_fits by auto.
    by apply Reserve_grow_throw.
  - intros <- Hnew.
    assert (E := EmplaceBack_grow_throw new x ys1 y ys2 Hnew Hx Hok Hy).
    split; [by rewrite PushBack_EmplaceBack, E|]. split; [done|].
    intros Hpos. split; [|done].
    apply Emplace_grow_throw_at; try done. lia.
Qed.

(** *** Growth *)

(** C5.  On a vector without spare capacity ([Size() == Capacity()]),
    [PushBack], [EmplaceBack], [Insert] and [Emplace] ask [operator new] for
    exactly [max(1, 2 * Capacity())] slots, which doubles a capacity that is
    not zero and gives 1 for capacity 0: refusing that one request makes
    them raise [bad_alloc], and granting it (with no constructor throwing)
    makes them return with exactly that capacity. *)
Theorem growth_doubles new pos x v :
  well_formed v = true → Size v = Capacity v →
  let g := Nat.max 1 (2 * Capacity v) in
  (g = if Capacity v =? 0 then 1 else 2 * Capacity v)
  ∧ (new g = false →
     PushBack new x v = Raised bad_alloc v []
     ∧ EmplaceBack new x v = Raised bad_alloc v []
     ∧ Insert new pos x v = Raised bad_alloc v []
     ∧ Emplace new pos x v = Raised bad_alloc v [])
  ∧ (new g = true → ctor_throws x = false →
     never_throws transfer_rule (contents v) → pos ≤ Size v →
     ∃ v1 v2,
       PushBack new x v = Normal tt v1 [] ∧ Capacity v1 = g
       ∧ EmplaceBack new x v = Normal (Size v) v1 []
       ∧ Insert new pos x v = Normal pos v2 []
       ∧ Emplace new pos x v = Normal pos v2 [] ∧ Capacity v2 = g
       ∧ Size v1 = S (Size v) ∧ Size v2 = S (Size v)).
Proof.
  intros Hwf Hfull g. split; [|split].
  - unfold g. destruct (Capacity v); simpl; lia.
  - intros Hnew.
    apply refused_growth; [lia | done].
  - intros Hnew Hx Hok Hpos.
    destruct (Emplace_inserts new pos x v Hwf Hpos (or_introl Hfull) Hnew Hx
                Hok) as (v2 & E2 & Hs2 & _ & Hc2 & _).
    destruct (Nat.ltb_spec (Size v) (Capacity v)) as [Hlt|_]; [lia|].
    pose proof Hwf as (xs & cap & Hle & ->)%wf_cases.
    revert g Hfull Hnew Hok E2 Hs2 Hc2. rewrite contents_repr. sizes.
    intros <- Hnew Hok E2 Hs2 Hc2.
    exists (repr (xs ++ [x]) (Nat.max 1 (2 * length xs))), v2.
    rewrite PushBack_EmplaceBack, EmplaceBack_grow by done.
    repeat split; try done.
    cbn [repr size_]. rewrite length_app. simpl. lia.
Qed.

(** *** The invariant *)

Lemma public_call_wf {A} (op : Vector T → outcome (Vector T) A T) :
  public_call op →
  ∀ v v', well_formed v = true → state_after (op v) = Some v' →
          well_formed v' = true.
Proof.
  intros Hc. destruct Hc; intros v v' Hwf Hs.
  - by apply (subscript_assign_wf index x v).
  - by apply (Reserve_wf new n v).
  - by apply (Resize_wf new n v).
  - by apply (PushBack_wf new x v).
  - by apply (PopBack_wf v).
  - by apply (EmplaceBack_wf new x v).
  - by apply (Emplace_wf new pos x v).
  - by apply (Emplace_wf new pos x v).
  - by apply (Erase_wf pos v).
Qed.

Lemma reachable_well_formed v : reachable v → well_formed v = true.
Proof.
  induction 1 as [ | new size v lk E | new other v lk _ IH E
                 | other _ IH | other _ IH
                 | this other _ IH1 _ IH2 | this other _ IH1 _ IH2
                 | new rhs this a v' lk _ IH1 _ IH2 E
                 | new rhs this e v' lk _ IH1 _ IH2 E
                 | A op v a v' lk Hc _ IH E | A op v e v' lk Hc _ IH E ].
  - reflexivity.
  - by apply (Vector_sized_wf new size v lk).
  - apply wf_cases in IH as (xs & cap & Hle & ->).
    destruct (Vector_copy_cases new xs cap) as [E' | (e & lk' & E')];
      rewrite E' in E; [|done].
    injection E as <- _. by apply well_formed_repr.
  - unfold Vector_move. by rewrite Swap_repr.
  - unfold Vector_move. by rewrite Swap_repr.
  - unfold move_assign. by rewrite Swap_repr.
  - unfold move_assign. by rewrite Swap_repr.
  - apply (copy_assign_wf new rhs this v' IH1 IH2). by rewrite E.
  - apply (copy_assign_wf new rhs this v' IH1 IH2). by rewrite E.
  - apply (public_call_wf op Hc v v' IH). by rewrite E.
  - apply (public_call_wf op Hc v v' IH). by rewrite E.
Qed.

(** C9.  Every state a vector can be brought into by its constructors and
    public member functions, whether the calls return or raise, has
    [Size() ≤ Capacity()]. *)
Theorem reachable_size_le_capacity v : reachable v → Size v ≤ Capacity v.
Proof.
  intros Hr. apply reachable_well_formed in Hr.
  by apply well_formed_inv in Hr as (_ & Hle & _).
Qed.

End Claims.

(** * The claims at concrete vectors *)

(** C1 as the specification states it fails: move assignment of [{5}] into a
    vector holding [{7, 8}] in four slots leaves the source with that
    vector's state, size 2 and capacity 4, not size 0 and capacity 0. *)
Lemma move_assign_source_gets_target_state :
  let A := repr [5%Z] 1 in
  let B := repr [7%Z; 8%Z] 4 in
  (move_assign B A).2 = B
  ∧ Size (move_assign B A).2 = 2 ∧ Capacity (move_assign B A).2 = 4
  ∧ ¬ (Size (move_assign B A).2 = 0 ∧ Capacity (move_assign B A).2 = 0).
Proof.
  cbn zeta. split; [reflexivity|]. split; [reflexivity|].
  split; [reflexivity|]. intros [Hs _]. discriminate Hs.
Qed.

(** C3 as the specification states it fails: [PushBack(9)] on a full vector
    [{1, 13}] of a type whose copy constructor throws on 13 raises with the
    vector unchanged, and the new element 9, constructed in the new block,
    is released without having been destroyed. *)
Lemma PushBack_failed_transfer_leaks_new_element :
  let v := repr [Fragile 1; Fragile 13] 2 in
  PushBack always_granted (Fragile 9) v = Raised element_exn v [Fragile 9]
  ∧ ¬ (∃ v', PushBack always_granted (Fragile 9) v = Raised element_exn v' []).
Proof.
  cbn zeta. split; [reflexivity|]. intros [v' E]. discriminate E.
Qed.

Lemma failed_transfer_keeps_old_storage_witness :
  let v := repr [Fragile 1; Fragile 13] 2 in
  Reserve_size_t always_granted 5 v = Raised element_exn v []
  ∧ PushBack always_granted (Fragile 9) v = Raised element_exn v [Fragile 9]
  ∧ Emplace always_granted 1 (Fragile 9) v
    = Raised element_exn v [Fragile 1; Fragile 9].
Proof.
  intros v.
  destruct (failed_transfer_keeps_old_storage always_granted 5 1 (Fragile 9)
              v [Fragile 1] (Fragile 13) [])
    as (_ & HR & HP);
    [reflexivity | reflexivity | repeat constructor | reflexivity
    | reflexivity |].
  split;
    [apply HR; [unfold Capacity; simpl; lia | reflexivity | reflexivity] |].
  destruct HP as (HPB & _ & HE); [reflexivity | reflexivity |].
  split; [exact HPB | apply HE; unfold Size; simpl; lia].
Defined.

Lemma PushBack_round_trip_witness :
  ∃ caps v,
    PushBack_all always_granted [4; 5; 6]%Z Vector_default = Normal caps v []
    ∧ Size v = 3
    ∧ (∀ i, i < 3 → subscript v i = [4; 5; 6]%Z !! i)
    ∧ contents v = [4; 5; 6]%Z ∧ well_formed v = true.
Proof.
  apply (PushBack_round_trip always_granted [4; 5; 6]%Z);
    [intros n; reflexivity | repeat constructor | repeat constructor].
Defined.

Lemma growth_doubles_witness :
  ∃ v1 v2,
    PushBack always_granted 3%Z (repr [1; 2]%Z 2) = Normal tt v1 []
    ∧ Capacity v1 = 4
    ∧ EmplaceBack always_granted 3%Z (repr [1; 2]%Z 2) = Normal 2 v1 []
    ∧ Insert always_granted 1 3%Z (repr [1; 2]%Z 2) = Normal 1 v2 []
    ∧ Emplace always_granted 1 3%Z (repr [1; 2]%Z 2) = Normal 1 v2 []
    ∧ Capacity v2 = 4
    ∧ Size v1 = 3 ∧ Size v2 = 3.
Proof.
  apply (growth_doubles always_granted 1 3%Z (repr [1; 2]%Z 2));
    [reflexivity | reflexivity | reflexivity | reflexivity
    | repeat constructor | unfold Size; simpl; lia].
Defined.



Lemma PopBack_spec_witness :
  PopBack (repr ([] : list Z) 3) = Normal tt (repr [] 3) []
  ∧ ∃ v', PopBack (repr [1; 2]%Z 3) = Normal tt v' []
          ∧ Size v' = 1 ∧ contents v' = [1%Z].
Proof.
  destruct (PopBack_spec (repr ([] : list Z) 3)) as (H1 & _); [reflexivity|].
  destruct (PopBack_spec (repr [1; 2]%Z 3)) as (_ & H2); [reflexivity|].
  split; [apply H1; reflexivity|].
  destruct H2 as (v' & E & Hs & _ & Hc & _); [unfold Size; simpl; lia|].
  exists v'. repeat split; assumption.
Defined.

Lemma Erase_spec_witness :
  ∃ v', Erase 0 (repr [1; 2; 3]%Z 4) = Normal 0 v' []
        ∧ Size v' = 2 ∧ contents v' = [2; 3]%Z.
Proof.
  destruct (Erase_spec 0 (repr [1; 2; 3]%Z 4))
    as (v' & E & Hs & _ & Hc & _); [reflexivity | unfold Size; simpl; lia |].
  exists v'. repeat split; assumption.
Defined.

Lemma reachable_size_le_capacity_witness :
  Size (repr [7%Z] 1) ≤ Capacity (repr [7%Z] 1).
Proof.
  apply reachable_size_le_capacity.
  apply (reach_normal (PushBack always_granted 7%Z) Vector_default tt _ []);
    [constructor | constructor | reflexivity].
Defined.

Lemma refused_allocation_changes_nothing_witness :
  Reserve never_granted 5 (repr [1; 2]%Z 2)
  = Raised bad_alloc (repr [1; 2]%Z 2) []
  ∧ PushBack never_granted 3%Z (repr [1; 2]%Z 2)
    = Raised bad_alloc (repr [1; 2]%Z 2) []
  ∧ Emplace never_granted 1 3%Z (repr [1; 2]%Z 2)
    = Raised bad_alloc (repr [1; 2]%Z 2) [].
Proof.
  destruct (refused_allocation_changes_nothing never_granted 5 1 3%Z
              (repr [1; 2]%Z 2)) as (HR & HP).
  destruct HR as (HR & _); [unfold Capacity; simpl; lia | reflexivity |].
  destruct HP as (HPB & _ & _ & HE);
    [unfold Capacity, Size; simpl; lia | reflexivity |].
  repeat split; assumption.
Defined.

(** * Further properties of the header *)

Section Extras.
Context {T : Type} `{Element T} `{Sized T}.
Implicit Types (xs ys es : list T) (v : Vector T) (new : nat → bool).

Ltac sizes :=
  unfold Capacity, Size, end_; cbn [repr data_ size_ capacity_ buffer_].

Lemma public_call_orderly {A} (op : Vector T → outcome (Vector T) A T) :
  public_call op → ∀ v, well_formed v = true → orderly v (op v).
Proof.
  intros Hc. destruct Hc; intros v Hwf.
  - by apply subscript_assign_orderly.
  - by apply Reserve_orderly.
  - by apply Resize_orderly.
  - by apply PushBack_orderly.
  - by apply PopBack_orderly.
  - by apply EmplaceBack_orderly.
  - by apply Emplace_orderly.
  - by apply Emplace_orderly.
  - by apply Erase_orderly.
Qed.

(** X1.  No public member function, and no copy assignment, lowers the
    capacity of a well-formed vector, whether it returns or raises. *)
Theorem capacity_never_shrinks {A} (op : Vector T → outcome (Vector T) A T)
    new rhs v :
  public_call op → well_formed v = true → well_formed rhs = true →
  (∀ v', state_after (op v) = Some v' → Capacity v ≤ Capacity v')
  ∧ (∀ v', state_after (copy_assign new rhs v) = Some v' →
           Capacity v ≤ Capacity v').
Proof.
  intros Hc Hwf Hrhs.
  pose proof (public_call_orderly op Hc v Hwf) as E1.
  pose proof (copy_assign_orderly new rhs v Hrhs Hwf) as E2.
  unfold Capacity. split; intros v'.
  - destruct (op v); simpl in *; intros [= <-]; tauto.
  - destruct (copy_assign new rhs v); simpl in *; intros [= <-]; tauto.
Qed.

(** X2.  A public member function, or a copy assignment, that returns
    normally on a well-formed vector has released no live object: every
    object it took out of use was destroyed first. *)
Theorem normal_return_leaks_nothing {A}
    (op : Vector T → outcome (Vector T) A T) new rhs v :
  public_call op → well_formed v = true → well_formed rhs = true →
  (∀ a v' lk, op v = Normal a v' lk → lk = [])
  ∧ (∀ a v' lk, copy_assign new rhs v = Normal a v' lk → lk = []).
Proof.
  intros Hc Hwf Hrhs.
  pose proof (public_call_orderly op Hc v Hwf) as E1.
  pose proof (copy_assign_orderly new rhs v Hrhs Hwf) as E2.
  split; intros a v' lk E; [rewrite E in E1 | rewrite E in E2];
    simpl in *; tauto.
Qed.

(** X3.  A call that raises leaves the vector well formed and with the size
    it had.  This is shown for the calls that construct elements and assign
    none: [Reserve(n)] and [Resize(n)] with [n * sizeof(T)] within the range
    of [size_t], [PushBack], [EmplaceBack], [Insert] and [Emplace] on a
    vector without spare capacity or without elements, and copy assignment
    from a vector with more elements than the capacity. *)
Theorem raise_keeps_size new n pos x rhs v e v' lk :
  well_formed v = true → well_formed rhs = true →
  (request_fits n = true
   ∧ (Reserve_size_t new n v = Raised e v' lk
      ∨ Resize_size_t new n v = Raised e v' lk))
  ∨ PushBack new x v = Raised e v' lk
  ∨ EmplaceBack new x v = Raised e v' lk
  ∨ ((Capacity v ≤ Size v ∨ Size v = 0)
     ∧ (Insert new pos x v = Raised e v' lk
        ∨ Emplace new pos x v = Raised e v' lk))
  ∨ (Capacity v < Size rhs ∧ copy_assign new rhs v = Raised e v' lk) →
  Size v' = Size v ∧ well_formed v' = true.
Proof.
  intros Hwf Hrhs Hcase.
  assert (Hord : ∀ A (o : outcome (Vector T) A T),
             orderly v o → o = Raised e v' lk →
             Size v' = Size v ∧ well_formed v' = true).
  { intros A o Ho ->. unfold Size. simpl in Ho. tauto. }
  destruct Hcase as [[Hfit [E|E]] | [E | [E | [[_ [E|E]] | [_ E]]]]].
  - rewrite Reserve_size_t_fits in E by auto.
    by apply (Hord _ _ (Reserve_orderly new n v Hwf)).
  - rewrite Resize_size_t_fits in E by auto.
    by apply (Hord _ _ (Resize_orderly new n v Hwf)).
  - by apply (Hord _ _ (PushBack_orderly new x v Hwf)).
  - by apply (Hord _ _ (EmplaceBack_orderly new x v Hwf)).
  - by apply (Hord _ _ (Emplace_orderly new pos x v Hwf)).
  - by apply (Hord _ _ (Emplace_orderly new pos x v Hwf)).
  - by apply (Hord _ _ (copy_assign_orderly new rhs v Hrhs Hwf)).
Qed.

(** X4.  [Resize(n)] with [n ≤ Size()] keeps the first [n] elements and the
    capacity, and asks for no memory.  With [n > Size()] it appends
    [n - Size()] value-initialised elements; the capacity stays when
    [n ≤ Capacity()] and becomes exactly [n] otherwise, [n * sizeof(T)]
    being within the range of [size_t]. *)
Theorem Resize_spec new n v :
  well_formed v = true →
  (n ≤ Size v →
   Resize_size_t new n v
   = Normal tt (repr (take n (contents v)) (Capacity v)) [])
  ∧ (Size v < n → value_init_throws = false →
     n ≤ Capacity v
     ∨ (request_fits n = true ∧ new n = true
        ∧ never_throws transfer_rule (contents v)) →
     Resize_size_t new n v
     = Normal tt (repr (contents v ++ replicate (n - Size v) value_init)
                       (Nat.max n (Capacity v))) []).
Proof.
  intros Hwf.
  assert (Hsame : n ≤ Capacity v ∨ request_fits n = true →
                  Resize_size_t new n v = Resize new n v).
  { intros [?|?]; apply Resize_size_t_fits; auto. }
  pose proof Hwf as (xs & cap & Hle & ->)%wf_cases.
  revert Hsame. rewrite contents_repr. sizes. intros Hsame.
  split; [intros Hn; rewrite Hsame by (left; lia)
         | intros Hn Hv Hcase; rewrite Hsame by tauto];
    clear Hsame; rewrite Resize_unfold; sizes.
  - destruct (Nat.ltb_spec cap n); [lia|].
    pose proof (Resize_tail_shrink (take n xs) (drop n xs) cap []) as E.
    rewrite take_drop, length_take_le in E by lia. by apply E.
  - destruct (Nat.ltb_spec cap n) as [Hlt|Hge].
    + destruct Hcase as [? | (_ & Hnew & Hok)]; [lia|].
      rewrite Reserve_grow by (done || lia).
      rewrite Resize_tail_grow by (done || lia).
      by rewrite Nat.max_l by lia.
    + rewrite Resize_tail_grow by (done || lia).
      by rewrite Nat.max_r by lia.
Qed.

(** X5.  When [T()] throws, a growing [Resize(n)] raises with the elements
    and the size unchanged; but if it had to reallocate first
    ([n * sizeof(T)] being within the range of [size_t]), the capacity has
    already become [n]. *)
Theorem Resize_value_init_throws new n v :
  well_formed v = true → Size v < n → value_init_throws = true →
  (n ≤ Capacity v → Resize_size_t new n v = Raised element_exn v [])
  ∧ (Capacity v < n → request_fits n = true → new n = true →
     never_throws transfer_rule (contents v) →
     Resize_size_t new n v = Raised element_exn (repr (contents v) n) []).
Proof.
  intros Hwf.
  assert (Hsame : n ≤ Capacity v ∨ request_fits n = true →
                  Resize_size_t new n v = Resize new n v).
  { intros [?|?]; apply Resize_size_t_fits; auto. }
  pose proof Hwf as (xs & cap & Hle & ->)%wf_cases.
  revert Hsame. rewrite contents_repr. sizes. intros Hsame Hn Hv.
  split; [intros Hc; rewrite Hsame by tauto
         | intros Hc Hfit Hnew Hok; rewrite Hsame by tauto];
    clear Hsame; rewrite Resize_unfold; sizes.
  - destruct (Nat.ltb_spec cap n); [lia|].
    by rewrite Resize_tail_throw.
  - destruct (Nat.ltb_spec cap n); [|lia].
    rewrite Reserve_grow by (done || lia).
    by rewrite Resize_tail_throw.
Qed.

(** X6.  [Vector(size)], with [size * sizeof(T)] within the range of
    [size_t], builds [size] value-initialised elements in a block of exactly
    [size] slots; [Vector(0)] asks for no memory.  A refused block raises
    [bad_alloc], a throwing [T()] raises, and neither leaks.  When
    [size * sizeof(T)] wraps around, the block granted has fewer than [size]
    slots and the construction of the elements runs past its end. *)
Theorem Vector_sized_spec new size :
  (request_fits size = true → value_init_throws = false →
   new size = true ∨ size = 0 →
   Vector_sized_size_t new size
   = Normal (repr (replicate size value_init) size) tt [])
  ∧ (0 < size → new size = false →
     @Vector_sized_size_t T _ _ new size = Raised bad_alloc tt [])
  ∧ (request_fits size = true → 0 < size → new size = true →
     value_init_throws = true →
     @Vector_sized_size_t T _ _ new size = Raised element_exn tt [])
  ∧ (request_fits size = false → new size = true →
     value_init_throws = false →
     @Vector_sized_size_t T _ _ new size = Undefined).
Proof.
  split; [|split; [|split]].
  - intros Hfit Hv Hnew. rewrite Vector_sized_size_t_fits by done.
    by apply Vector_sized_ok.
  - intros Hpos Hnew. unfold Vector_sized_size_t, RawMemory_sized_size_t,
      Allocate_size_t.
    destruct (Nat.eqb_spec size 0); [lia|]. simpl. by rewrite Hnew.
  - intros Hfit. rewrite Vector_sized_size_t_fits by done.
    apply Vector_sized_throw.
  - intros Hfit Hnew Hv. apply Vector_sized_size_t_overflows; [done | | done].
    by apply block_slots_wraps.
Qed.

(** X7.  The copy constructor builds a vector with the elements of the
    other one in a block of exactly [other.Size()] slots (spare capacity is
    not copied); copying an empty vector asks for no memory.  A refused
    block or a throwing copy raises without leaking. *)
Theorem Vector_copy_spec new other :
  well_formed other = true →
  (never_throws by_copy (contents other) →
   new (Size other) = true ∨ Size other = 0 →
   Vector_copy new other
   = Normal (repr (contents other) (Size other)) tt [])
  ∧ (0 < Size other → new (Size other) = false →
     Vector_copy new other = Raised bad_alloc tt [])
  ∧ (new (Size other) = true → ¬ never_throws by_copy (contents other) →
     Vector_copy new other = Raised element_exn tt []).
Proof.
  intros (xs & cap & Hle & ->)%wf_cases. rewrite contents_repr. sizes.
  split; [|split].
  - intros Hok Hnew. by apply Vector_copy_ok.
  - apply Vector_copy_refused.
  - intros Hnew Hno.
    destruct (first_throw by_copy xs)
      as [Hok | (ys1 & y & ys2 & -> & Hok & Hy)]; [done|].
    by apply Vector_copy_throw.
Qed.

(** X8.  Copy assignment leaves [*this] with the elements of [rhs].  When
    [Capacity() ≥ rhs.Size()] the block is reused: the capacity is unchanged
    and [operator new] is not consulted; this needs the smaller of the two
    sizes to be at most [INT_MAX], for the loop counter is an [int], and
    beyond that the call has no defined behaviour.  Otherwise the capacity
    becomes exactly [rhs.Size()]. *)
Theorem copy_assign_spec new rhs this :
  well_formed rhs = true → well_formed this = true →
  (never_throws by_copy (contents rhs) →
   (Capacity this < Size rhs → new (Size rhs) = true) →
   (Size rhs ≤ Capacity this →
    (N.of_nat (Size rhs `min` Size this) ≤ INT_MAX)%N) →
   copy_assign new rhs this
   = Normal tt
       (repr (contents rhs)
             (if Capacity this <? Size rhs then Size rhs else Capacity this))
       [])
  ∧ (Size rhs ≤ Capacity this →
     (INT_MAX < N.of_nat (Size rhs `min` Size this))%N →
     copy_assign new rhs this = Undefined).
Proof.
  intros (rs & rcap & Hrle & ->)%wf_cases (xs & cap & Hle & ->)%wf_cases.
  rewrite contents_repr. sizes. split.
  2: { intros Hcap Hint. by apply copy_assign_int_overflow. }
  intros Hok Hnew Hint.
  destruct (Nat.ltb_spec cap (length rs)) as [Hlt|Hge].
  - by apply copy_assign_realloc_ok; [| apply Hnew |].
  - specialize (Hint Hge).
    destruct (decide (length rs ≤ length xs)) as [Hs|Hs].
    + pose proof (copy_assign_shrink new rs rcap (take (length rs) xs)
                    (drop (length rs) xs) cap) as E.
      rewrite take_drop, length_take_le in E by lia. apply E; [done..|lia].
    + pose proof (copy_assign_extend new (take (length xs) rs)
                    (drop (length xs) rs) rcap xs cap) as E.
      rewrite take_drop in E. apply E.
      * rewrite length_take_le; lia.
      * rewrite length_drop; lia.
      * done.
      * lia.
      * by apply Forall_drop.
Qed.

(** X9.  Copy assignment into a block that is large enough gives only the
    basic guarantee: when [rhs] is longer than [*this] and the copy
    constructor throws on one of the elements beyond [Size()], [*this] keeps
    its size and capacity but its elements have already been overwritten
    with the first [Size()] elements of [rhs].  [Size()] is at most
    [INT_MAX] here, the loop counter being an [int]. *)
Theorem copy_assign_overwrites_before_throwing new rhs this rs1 ys1 y ys2 :
  well_formed rhs = true → well_formed this = true →
  contents rhs = rs1 ++ ys1 ++ y :: ys2 → length rs1 = Size this →
  Size rhs ≤ Capacity this →
  (N.of_nat (Size this) ≤ INT_MAX)%N →
  never_throws by_copy ys1 → copy_throws y = true →
  copy_assign new rhs this
  = Raised element_exn (repr rs1 (Capacity this)) [].
Proof.
  intros (rs & rcap & Hrle & ->)%wf_cases (xs & cap & Hle & ->)%wf_cases.
  rewrite contents_repr. sizes. intros -> Hlen Hcap Hint Hok Hy.
  by apply copy_assign_extend_throw.
Qed.

(** X10.  [Erase] undoes [Insert]: inserting at a position where [Insert]
    is defined and erasing at the iterator it returned gives back the
    elements and the size the vector had. *)
Theorem Insert_then_Erase new pos x v :
  well_formed v = true → pos ≤ Size v →
  Size v = Capacity v ∨ Size v = 0 ∨ pos < Size v →
  new (Nat.max 1 (2 * Capacity v)) = true → ctor_throws x = false →
  never_throws transfer_rule (contents v) →
  ∃ it v1 v2,
    Insert new pos x v = Normal it v1 []
    ∧ Erase it v1 = Normal pos v2 []
    ∧ contents v2 = contents v ∧ Size v2 = Size v
    ∧ Capacity v2 = Capacity v1.
Proof.
  intros Hwf Hpos Hcase Hnew Hx Hok.
  destruct (Emplace_inserts new pos x v Hwf Hpos Hcase Hnew Hx Hok)
    as (v1 & E & Hs & Hc & _ & Hwf1).
  apply wf_cases in Hwf as (xs & cap & Hle & ->).
  apply wf_cases in Hwf1 as (xs1 & cap1 & Hle1 & ->).
  revert Hpos Hs Hc. rewrite !contents_repr. sizes. intros Hpos Hs ->.
  exists pos, (repr (take pos xs ++ x :: drop pos xs) cap1),
    (repr xs cap1).
  split; [done|].
  assert (Hlt : length (take pos xs) = pos) by (rewrite length_take_le; lia).
  pose proof (Erase_middle (take pos xs) x (drop pos xs) cap1) as E1.
  rewrite take_drop, Hlt in E1.
  rewrite E1 by done. by rewrite contents_repr.
Qed.

(** X11.  [PopBack] undoes [PushBack]: the elements and the size are those
    before the push; the capacity is the one the push left, which may have
    grown. *)
Theorem PushBack_then_PopBack new x v :
  well_formed v = true →
  new (Nat.max 1 (2 * Capacity v)) = true → ctor_throws x = false →
  never_throws transfer_rule (contents v) →
  ∃ v1,
    PushBack new x v = Normal tt v1 []
    ∧ PopBack v1 = Normal tt (repr (contents v) (Capacity v1)) []
    ∧ Capacity v ≤ Capacity v1.
Proof.
  intros (xs & cap & Hle & ->)%wf_cases. rewrite contents_repr. sizes.
  intros Hnew Hx Hok.
  set (c1 := if length xs <? cap then cap else Nat.max 1 (2 * cap)).
  assert (Hc1 : length (xs ++ [x]) ≤ c1 ∧ cap ≤ c1).
  { rewrite length_app. simpl. unfold c1.
    destruct (Nat.ltb_spec (length xs) cap); lia. }
  exists (repr (xs ++ [x]) c1).
  rewrite PushBack_ok by done. fold c1.
  rewrite PopBack_snoc by tauto. sizes. tauto.
Qed.

(** X12.  On a vector without spare capacity, [Emplace(end(), ...)] and
    [EmplaceBack(...)] are the same operation: same result, same state,
    same exception, for every allocator and element behaviour. *)
Theorem Emplace_at_end_is_EmplaceBack new x v :
  well_formed v = true → Size v = Capacity v →
  Emplace new (end_ v) x v = EmplaceBack new x v
  ∧ Insert new (end_ v) x v = EmplaceBack new x v.
Proof.
  intros (xs & cap & Hle & ->)%wf_cases. sizes. intros <-.
  unfold Insert.
  enough (Emplace new (length xs) x (repr xs (length xs))
          = EmplaceBack new x (repr xs (length xs))) by done.
  assert (Hcap : Capacity (repr xs (length xs)) = length xs) by done.
  destruct (new (Nat.max 1 (2 * length xs))) eqn:Hnew.
  2: { rewrite Emplace_refused, EmplaceBack_refused
         by (rewrite ?Hcap; done). done. }
  destruct (ctor_throws x) eqn:Hx.
  { rewrite Emplace_full_ctor_throw, EmplaceBack_full_throw
      by (rewrite ?Hcap; done). done. }
  destruct (decide (length xs = 0)) as [Hz|Hnz].
  { apply length_zero_iff_nil in Hz as ->.
    rewrite Emplace_empty_grow, EmplaceBack_grow by (done || constructor).
    done. }
  destruct (first_throw transfer_rule xs)
    as [Hok | (ys1 & y & ys2 & Hxs & Hok & Hy)].
  - rewrite Emplace_grow_at, EmplaceBack_grow by (done || lia).
    by rewrite take_ge, drop_ge by lia.
  - rewrite Hxs in *.
    rewrite Emplace_grow_throw_at, EmplaceBack_grow_throw by (done || lia).
    destruct (Nat.leb_spec (length (ys1 ++ y :: ys2)) (length ys1)) as [Hl|_];
      [rewrite length_app in Hl; simpl in Hl; lia | done].
Qed.

(** X13.  [Erase] at a position that holds no element, be it [end()], a
    position beyond it or any position of an empty vector, is not a no-op:
    it calls [std::move] on something that is not a range, and its behaviour
    is undefined. *)
Theorem Erase_outside_is_undefined pos v :
  well_formed v = true → Size v ≤ pos → Erase pos v = Undefined.
Proof.
  intros (xs & cap & Hle & ->)%wf_cases. sizes. apply Erase_outside.
Qed.

(** X14.  On every vector with elements and spare capacity, [Insert] and
    [Emplace] at [end()] or beyond have no defined result (when no
    constructor throws first): the in-place branch shifts a range whose
    first position lies after its last. *)
Theorem Insert_at_end_needs_full_vector new pos x v :
  well_formed v = true → 0 < Size v → Size v < Capacity v → Size v ≤ pos →
  ctor_throws x = false →
  (∀ l, last (contents v) = Some l → transfer_throws transfer_rule l = false) →
  Emplace new pos x v = Undefined ∧ Insert new pos x v = Undefined.
Proof.
  intros (xs & cap & Hle & ->)%wf_cases. rewrite contents_repr. sizes.
  intros Hpos Hlt Hp Hx Hl. unfold Insert.
  destruct xs as [|l xs _] using rev_ind; [simpl in Hpos; lia|].
  specialize (Hl l (last_snoc _ _)).
  by rewrite Emplace_spare_beyond.
Qed.

(** X15.  When the constructor of the new element throws, [PushBack],
    [EmplaceBack], [Insert] and [Emplace] raise with the vector exactly as
    it was and leak nothing, for every vector and position (the exception
    is [bad_alloc] instead when the block for a growth was refused
    first). *)
Theorem throwing_constructor_changes_nothing new pos x v :
  ctor_throws x = true →
  (∃ e, PushBack new x v = Raised e v [])
  ∧ (∃ e, EmplaceBack new x v = Raised e v [])
  ∧ (∃ e, Insert new pos x v = Raised e v [])
  ∧ (∃ e, Emplace new pos x v = Raised e v []).
Proof.
  intros Hx.
  assert (HB : ∃ e, EmplaceBack new x v = Raised e v []).
  { unfold EmplaceBack. rewrite Hx.
    destruct (size_ v <? capacity_ (data_ v)); [eauto|].
    destruct (RawMemory_sized new _) as [m|] eqn:Hm; [|eauto].
    apply RawMemory_sized_Some in Hm as ->.
    unfold RawMemory_release. simpl. rewrite live_in_raw. eauto. }
  assert (HE : ∃ e, Emplace new pos x v = Raised e v []).
  { unfold Emplace. rewrite Hx.
    destruct (size_ v <? capacity_ (data_ v)).
    { destruct (0 <? size_ v); eauto. }
    destruct (RawMemory_sized new _) as [m|] eqn:Hm; [|eauto].
    apply RawMemory_sized_Some in Hm as ->.
    unfold RawMemory_release. simpl. rewrite live_in_raw. eauto. }
  repeat split; try done.
  rewrite PushBack_EmplaceBack. destruct HB as [e ->]. eauto.
Qed.

(** X16.  Writing through [operator[]] at an index below [Size()] changes
    that element and nothing else; reading the index back gives the value
    written.  At an index from [Size()] on, the access is outside the
    contract: the read finds no element and the write is undefined, also
    when the slot lies within the capacity. *)
Theorem subscript_write_read index x v :
  well_formed v = true →
  (∀ i, subscript v i = contents v !! i)
  ∧ (index < Size v →
     subscript_assign v index x
     = Normal tt (repr (<[index := x]> (contents v)) (Capacity v)) []
     ∧ subscript (repr (<[index := x]> (contents v)) (Capacity v)) index
       = Some x
     ∧ ∀ j, j ≠ index →
            subscript (repr (<[index := x]> (contents v)) (Capacity v)) j
            = subscript v j)
  ∧ (Size v ≤ index →
     subscript v index = None ∧ subscript_assign v index x = Undefined).
Proof.
  intros (xs & cap & Hle & ->)%wf_cases. rewrite contents_repr. sizes.
  split; [intros i; apply subscript_repr|]. split.
  - intros Hlt.
    destruct (lookup_lt_is_Some_2 xs index Hlt) as [xi Hxi].
    pose proof (subscript_assign_middle (take index xs) xi
                  (drop (S index) xs) x cap) as E.
    rewrite take_drop_middle, length_take_le in E by (done || lia).
    rewrite E, <- insert_take_drop by done.
    split; [done|]. rewrite !subscript_repr. split.
    + by apply list_lookup_insert_eq.
    + intros j Hj. rewrite !subscript_repr. by apply list_lookup_insert_ne.
  - intros Hge. split.
    + rewrite subscript_repr. by apply lookup_ge_None_2.
    + unfold subscript_assign. sizes.
      by destruct (Nat.ltb_spec index (length xs)); [lia|].
Qed.

(** X17.  The destructor of a well-formed vector destroys every live
    element and nothing else: it is defined and the block is released with
    no object left alive in it. *)
Theorem destructor_leaks_nothing v :
  well_formed v = true → Vector_destroy v = Some [].
Proof.
  intros (xs & cap & Hle & ->)%wf_cases. apply Vector_destroy_repr.
Qed.

Lemma PushBack_all_pow new es : ∀ xs cap,
  (∀ n, new n = true) →
  (length xs = 0 ∧ cap = 0)
  ∨ (∃ m, cap = 2 ^ m ∧ length xs ≤ cap ∧ cap < 2 * length xs) →
  Forall (λ e, ctor_throws e = false) es →
  never_throws transfer_rule (xs ++ es) →
  ∃ caps cap',
    PushBack_all new es (repr xs cap) = Normal caps (repr (xs ++ es) cap') []
    ∧ ((length (xs ++ es) = 0 ∧ cap' = 0)
       ∨ ∃ m, cap' = 2 ^ m ∧ length (xs ++ es) ≤ cap'
              ∧ cap' < 2 * length (xs ++ es)).
Proof.
  induction es as [|e es IH]; intros xs cap Hnew Hinv Hctor Hok.
  - exists [], cap. by rewrite app_nil_r.
  - apply Forall_cons in Hctor as [He Hes].
    pose proof Hok as [Hxs _]%Forall_app.
    assert (Hle : length xs ≤ cap)
      by (destruct Hinv as [[-> ->] | (m & _ & ? & _)]; [simpl|]; lia).
    cbn [PushBack_all]. rewrite PushBack_ok by done.
    set (c1 := if length xs <? cap then cap else Nat.max 1 (2 * cap)).
    assert (Hinv1 : ∃ m, c1 = 2 ^ m ∧ length (xs ++ [e]) ≤ c1
                         ∧ c1 < 2 * length (xs ++ [e])).
    { rewrite length_app. cbn [length]. unfold c1.
      destruct Hinv as [[Hz ->] | (m & -> & Hl & Hu)].
      - rewrite Hz. exists 0. simpl. lia.
      - destruct (Nat.ltb_spec (length xs) (2 ^ m)).
        + exists m. lia.
        + exists (S m). rewrite Nat.pow_succ_r'. lia. }
    destruct (IH (xs ++ [e]) c1 Hnew (or_intror Hinv1) Hes)
      as (caps & cap' & E & Hfin).
    { by rewrite <- app_assoc. }
    rewrite E. exists (c1 :: caps), cap'.
    rewrite <- app_assoc in Hfin |- *. simpl in *. done.
Qed.

(** X18.  After [n ≥ 1] calls of [PushBack] on an empty vector the capacity
    is the power of two with [n ≤ Capacity() < 2 n]: the least power of two
    that holds the elements, so less than twice the memory in use. *)
Theorem PushBack_capacity_is_least_power_of_two new es :
  (∀ n, new n = true) → 0 < length es →
  Forall (λ e, ctor_throws e = false) es →
  never_throws transfer_rule es →
  ∃ caps v m,
    PushBack_all new es Vector_default = Normal caps v []
    ∧ Capacity v = 2 ^ m
    ∧ length es ≤ 2 ^ m ∧ 2 ^ m < 2 * length es.
Proof.
  intros Hnew Hpos Hctor Hok.
  destruct (PushBack_all_pow new es [] 0 Hnew) as (caps & cap & E & Hfin);
    [by left | done | done |].
  simpl in E, Hfin. destruct Hfin as [[Hz _] | (m & -> & Hl & Hu)]; [lia|].
  by exists caps, (repr es (2 ^ m)), m.
Qed.

Lemma PushBack_all_spare new es : ∀ xs cap,
  length xs + length es ≤ cap →
  Forall (λ e, ctor_throws e = false) es →
  PushBack_all new es (repr xs cap)
  = Normal (replicate (length es) cap) (repr (xs ++ es) cap) [].
Proof.
  induction es as [|e es IH]; intros xs cap Hle Hctor.
  - by rewrite app_nil_r.
  - apply Forall_cons in Hctor as [He Hes]. simpl in Hle.
    cbn [PushBack_all].
    rewrite PushBack_EmplaceBack, EmplaceBack_spare by (done || lia).
    rewrite IH by (rewrite ?length_app; simpl; done || lia).
    by rewrite <- app_assoc.
Qed.

(** X19.  While [Size()] stays within [Capacity()], for instance after
    [Reserve], [PushBack] never asks for memory and never moves an element:
    the calls succeed whatever [operator new] would answer, and the capacity
    is the same after each of them. *)
Theorem PushBack_within_capacity_never_allocates new es v :
  well_formed v = true → Size v + length es ≤ Capacity v →
  Forall (λ e, ctor_throws e = false) es →
  PushBack_all new es v
  = Normal (replicate (length es) (Capacity v))
           (repr (contents v ++ es) (Capacity v)) [].
Proof.
  intros (xs & cap & Hle & ->)%wf_cases. rewrite contents_repr. sizes.
  apply PushBack_all_spare.
Qed.

(** X20.  With spare capacity, when relocating the last element into the
    new last slot throws, [Emplace] and [Insert] raise with the vector
    exactly as it was and leak nothing. *)
Theorem Emplace_in_place_relocation_throws new pos x v l :
  well_formed v = true → Size v < Capacity v →
  last (contents v) = Some l → transfer_throws transfer_rule l = true →
  ctor_throws x = false →
  Emplace new pos x v = Raised element_exn v []
  ∧ Insert new pos x v = Raised element_exn v [].
Proof.
  intros (xs & cap & Hle & ->)%wf_cases. rewrite contents_repr. sizes.
  intros Hlt Hlast Hl Hx. unfold Insert.
  apply last_Some in Hlast as [xs' ->].
  by rewrite Emplace_spare_last_throw.
Qed.

End Extras.

(** * The further properties at concrete vectors *)

Lemma capacity_never_shrinks_witness :
  Capacity (@Vector_default Z) ≤ Capacity (repr [7%Z] 1).
Proof.
  destruct (capacity_never_shrinks (PushBack always_granted 7%Z)
              always_granted (repr [1%Z] 1) Vector_default) as [H1 _];
    [constructor | reflexivity | reflexivity |].
  apply H1. reflexivity.
Defined.

Lemma normal_return_leaks_nothing_witness :
  match Reserve always_granted 5 (repr [1; 2]%Z 2) with
  | Normal _ _ lk => lk = []
  | _ => False
  end.
Proof.
  destruct (normal_return_leaks_nothing (Reserve always_granted 5)
              always_granted (repr [1%Z] 1) (repr [1; 2]%Z 2)) as [H1 _];
    [constructor | reflexivity | reflexivity |].
  apply (H1 tt (repr [1; 2]%Z 5) []). reflexivity.
Defined.

Lemma raise_keeps_size_witness :
  Size (repr [Fragile 1; Fragile 13] 2) = 2
  ∧ well_formed (repr [Fragile 1; Fragile 13] 2) = true.
Proof.
  apply (raise_keeps_size always_granted 0 0 (Fragile 9)
           (repr [Fragile 1] 1) (repr [Fragile 1; Fragile 13] 2)
           element_exn (repr [Fragile 1; Fragile 13] 2) [Fragile 9]);
    [reflexivity | reflexivity |].
  right. left. reflexivity.
Defined.

Lemma Resize_spec_witness :
  Resize_size_t never_granted 1 (repr [1; 2]%Z 2)
  = Normal tt (repr [1%Z] 2) []
  ∧ Resize_size_t always_granted 4 (repr [1; 2]%Z 2)
    = Normal tt (repr [1; 2; 0; 0]%Z 4) [].
Proof.
  destruct (Resize_spec never_granted 1 (repr [1; 2]%Z 2)) as [H1 _];
    [reflexivity|].
  destruct (Resize_spec always_granted 4 (repr [1; 2]%Z 2)) as [_ H2];
    [reflexivity|].
  split.
  - apply H1. unfold Size. simpl. lia.
  - apply H2; [unfold Size; simpl; lia | reflexivity |].
    right. split; [reflexivity|]. split; [reflexivity | repeat constructor].
Defined.

Lemma Resize_value_init_throws_witness :
  Resize_size_t always_granted 3 (repr [Guarded 1] 3)
  = Raised element_exn (repr [Guarded 1] 3) []
  ∧ Resize_size_t always_granted 3 (repr [Guarded 1] 1)
    = Raised element_exn (repr [Guarded 1] 3) [].
Proof.
  destruct (Resize_value_init_throws always_granted 3 (repr [Guarded 1] 3))
    as [H1 _]; [reflexivity | unfold Size; simpl; lia | reflexivity |].
  destruct (Resize_value_init_throws always_granted 3 (repr [Guarded 1] 1))
    as [_ H2]; [reflexivity | unfold Size; simpl; lia | reflexivity |].
  split.
  - apply H1. unfold Capacity. simpl. lia.
  - apply H2; [unfold Capacity; simpl; lia | reflexivity | reflexivity
              | repeat constructor].
Defined.

Lemma Vector_sized_spec_witness :
  Vector_sized_size_t never_granted 0 = Normal (repr ([] : list Z) 0) tt []
  ∧ Vector_sized_size_t always_granted 2 = Normal (repr [0; 0]%Z 2) tt []
  ∧ @Vector_sized_size_t guarded _ _ always_granted 2
    = Raised element_exn tt [].
Proof.
  destruct (@Vector_sized_spec Z _ _ never_granted 0) as [H0 _].
  destruct (@Vector_sized_spec Z _ _ always_granted 2) as [H1 _].
  destruct (@Vector_sized_spec guarded _ _ always_granted 2)
    as (_ & _ & H2 & _).
  split; [apply H0; [reflexivity | reflexivity | by right] |].
  split; [apply H1; [reflexivity | reflexivity | by left] |].
  apply H2; [reflexivity | lia | reflexivity | reflexivity].
Defined.

Lemma Vector_copy_spec_witness :
  Vector_copy always_granted (repr [1; 2]%Z 5)
  = Normal (repr [1; 2]%Z 2) tt []
  ∧ Vector_copy always_granted (repr [Fragile 1; Fragile 13] 2)
    = Raised element_exn tt [].
Proof.
  destruct (Vector_copy_spec always_granted (repr [1; 2]%Z 5)) as [H1 _];
    [reflexivity|].
  destruct (Vector_copy_spec always_granted (repr [Fragile 1; Fragile 13] 2))
    as (_ & _ & H2); [reflexivity|].
  split.
  - apply H1; [repeat constructor | by left].
  - apply H2; [reflexivity|].
    intros Hall. apply Forall_cons in Hall as [_ Hall].
    apply Forall_cons in Hall as [Hy _]. discriminate Hy.
Defined.

Lemma copy_assign_spec_witness :
  copy_assign never_granted (repr [1; 2]%Z 2) (repr [7; 8; 9]%Z 5)
  = Normal tt (repr [1; 2]%Z 5) []
  ∧ copy_assign always_granted (repr [1; 2]%Z 2) (repr [7]%Z 1)
    = Normal tt (repr [1; 2]%Z 2) [].
Proof.
  destruct (copy_assign_spec never_granted (repr [1; 2]%Z 2)
              (repr [7; 8; 9]%Z 5)) as [H1 _]; [reflexivity | reflexivity |].
  destruct (copy_assign_spec always_granted (repr [1; 2]%Z 2)
              (repr [7]%Z 1)) as [H2 _]; [reflexivity | reflexivity |].
  split.
  - apply H1; [repeat constructor | | intros _; vm_compute; discriminate].
    unfold Capacity, Size. simpl. lia.
  - apply H2; [repeat constructor | reflexivity |].
    unfold Capacity, Size. simpl. lia.
Defined.

Lemma copy_assign_overwrites_before_throwing_witness :
  copy_assign always_granted (repr [Fragile 1; Fragile 2; Fragile 13] 3)
              (repr [Fragile 7] 4)
  = Raised element_exn (repr [Fragile 1] 4) [].
Proof.
  apply (copy_assign_overwrites_before_throwing always_granted
           (repr [Fragile 1; Fragile 2; Fragile 13] 3) (repr [Fragile 7] 4)
           [Fragile 1] [Fragile 2] (Fragile 13) []);
    [reflexivity | reflexivity | reflexivity | reflexivity
    | unfold Size, Capacity; simpl; lia | vm_compute; discriminate
    | repeat constructor | reflexivity].
Defined.

Lemma Insert_then_Erase_witness :
  ∃ it v1 v2,
    Insert always_granted 1 9%Z (repr [1; 2]%Z 2) = Normal it v1 []
    ∧ Erase it v1 = Normal 1 v2 []
    ∧ contents v2 = [1; 2]%Z ∧ Size v2 = 2
    ∧ Capacity v2 = Capacity v1.
Proof.
  apply (Insert_then_Erase always_granted 1 9%Z (repr [1; 2]%Z 2));
    [reflexivity | unfold Size; simpl; lia | by left | reflexivity
    | reflexivity | repeat constructor].
Defined.

Lemma PushBack_then_PopBack_witness :
  ∃ v1,
    PushBack always_granted 9%Z (repr [1; 2]%Z 2) = Normal tt v1 []
    ∧ PopBack v1 = Normal tt (repr [1; 2]%Z (Capacity v1)) []
    ∧ 2 ≤ Capacity v1.
Proof.
  apply (PushBack_then_PopBack always_granted 9%Z (repr [1; 2]%Z 2));
    [reflexivity | reflexivity | reflexivity | repeat constructor].
Defined.

Lemma Emplace_at_end_is_EmplaceBack_witness :
  Emplace always_granted 2 9%Z (repr [1; 2]%Z 2)
  = EmplaceBack always_granted 9%Z (repr [1; 2]%Z 2).
Proof.
  apply (Emplace_at_end_is_EmplaceBack always_granted 9%Z (repr [1; 2]%Z 2));
    reflexivity.
Defined.

Lemma Erase_outside_is_undefined_witness :
  Erase 0 (repr ([] : list Z) 0) = Undefined
  ∧ Erase 2 (repr [1; 2]%Z 4) = Undefined.
Proof.
  split.
  - apply (Erase_outside_is_undefined 0 (repr ([] : list Z) 0));
      [reflexivity | unfold Size; simpl; lia].
  - apply (Erase_outside_is_undefined 2 (repr [1; 2]%Z 4));
      [reflexivity | unfold Size; simpl; lia].
Defined.

Lemma Insert_at_end_needs_full_vector_witness :
  Insert always_granted 2 9%Z (repr [1; 2]%Z 4) = Undefined.
Proof.
  apply (Insert_at_end_needs_full_vector always_granted 2 9%Z
           (repr [1; 2]%Z 4));
    [reflexivity | unfold Size; simpl; lia
    | unfold Size, Capacity; simpl; lia | unfold Size; simpl; lia
    | reflexivity | intros l _; reflexivity].
Defined.

Lemma throwing_constructor_changes_nothing_witness :
  (∃ e, PushBack always_granted (Guarded 0) (repr [Guarded 1] 1)
        = Raised e (repr [Guarded 1] 1) [])
  ∧ (∃ e, Emplace always_granted 0 (Guarded 0) (repr [Guarded 1] 3)
          = Raised e (repr [Guarded 1] 3) []).
Proof.
  destruct (throwing_constructor_changes_nothing always_granted 0
              (Guarded 0) (repr [Guarded 1] 1)) as (H1 & _);
    [reflexivity|].
  destruct (throwing_constructor_changes_nothing always_granted 0
              (Guarded 0) (repr [Guarded 1] 3)) as (_ & _ & _ & H2);
    [reflexivity|].
  split; assumption.
Defined.

Lemma subscript_write_read_witness :
  subscript_assign (repr [1; 2; 3]%Z 4) 1 9%Z
  = Normal tt (repr [1; 9; 3]%Z 4) []
  ∧ subscript_assign (repr [1; 2; 3]%Z 4) 3 9%Z = Undefined.
Proof.
  destruct (subscript_write_read 1 9%Z (repr [1; 2; 3]%Z 4))
    as (_ & H1 & _); [reflexivity|].
  destruct (subscript_write_read 3 9%Z (repr [1; 2; 3]%Z 4))
    as (_ & _ & H2); [reflexivity|].
  split.
  - apply H1. unfold Size. simpl. lia.
  - apply H2. unfold Size. simpl. lia.
Defined.

Lemma destructor_leaks_nothing_witness :
  Vector_destroy (repr [1; 2]%Z 4) = Some [].
Proof.
  apply (destructor_leaks_nothing (repr [1; 2]%Z 4)). reflexivity.
Defined.

Lemma PushBack_capacity_is_least_power_of_two_witness :
  ∃ caps v m,
    PushBack_all always_granted [1; 2; 3; 4; 5]%Z Vector_default
    = Normal caps v []
    ∧ Capacity v = 2 ^ m ∧ 5 ≤ 2 ^ m ∧ 2 ^ m < 10.
Proof.
  apply (PushBack_capacity_is_least_power_of_two always_granted
           [1; 2; 3; 4; 5]%Z);
    [intros n; reflexivity | simpl; lia | repeat constructor
    | repeat constructor].
Defined.

Lemma PushBack_within_capacity_never_allocates_witness :
  PushBack_all never_granted [2; 3]%Z (repr [1%Z] 3)
  = Normal [3; 3] (repr [1; 2; 3]%Z 3) [].
Proof.
  apply (PushBack_within_capacity_never_allocates never_granted [2; 3]%Z
           (repr [1%Z] 3));
    [reflexivity | unfold Size, Capacity; simpl; lia | repeat constructor].
Defined.

Lemma Emplace_in_place_relocation_throws_witness :
  Emplace always_granted 0 (Fragile 9) (repr [Fragile 1; Fragile 13] 3)
  = Raised element_exn (repr [Fragile 1; Fragile 13] 3) [].
Proof.
  apply (Emplace_in_place_relocation_throws always_granted 0 (Fragile 9)
           (repr [Fragile 1; Fragile 13] 3) (Fragile 13));
    [reflexivity | unfold Size, Capacity; simpl; lia | reflexivity
    | reflexivity | reflexivity].
Defined.
